(** * Rock-Paper-Scissors server: session and protocol core

    A shallow embedding of [rps_server.py]: the game object
    ([RockPaperScissorsGame]), the coroutines that drive one session
    ([start_game], [game_loop], [ask_for_rematch]) and the dispatcher
    ([handler]) with its global list [waiting_players].

    Python coroutines become functions in a state-and-exception monad.
    The state holds the game object and, for every websocket, what the
    peer is going to send and what the server has sent so far.

    The client, [rps_client.py], follows: [validate_move] and the loop
    of [play] over the frames that arrive and the lines the user
    types. *)

From stdpp Require Import gmap strings list.

Open Scope string_scope.
Open Scope list_scope.

(** ** Values on the wire *)

(** What [json.loads] returns.  A JSON object keeps its members in the
    order of the text; a number keeps its literal, the server never
    looks at one. *)
#[warnings="-register-all"]
Inductive json :=
| JNull
| JBool (b : bool)
| JNum (lit : string)
| JStr (s : string)
| JArr (items : list json)
| JObj (members : list (string * json)).

(** A frame handed out by [websocket.recv()].  The codec is Python's
    [json] module, so a frame is represented by what [json.loads] makes
    of it: a text that is not JSON, or the decoded value.  Frames on
    which [json.loads] fails in another way (bytes that are not UTF-8,
    a nesting too deep for the decoder) are left out. *)
Inductive frame :=
| Malformed (raw : string)
| Encoded (v : json).

(** The dictionaries the server passes to [json.dumps], one constructor
    per ["type"]. *)
Inductive msg :=
| MWaiting (message : string)
| MStart (player message : string)
| MYourMove (message : string)
| MResult (move1 move2 : option string) (result : string)
| MRematch
| MEnd (message : string)
| MError (message : string).

Global Instance msg_eq_dec : EqDecision msg.
Proof. solve_decision. Defined.

(** Exceptions raised by the modelled code. *)
Inductive exn :=
| ConnectionClosed
| JSONDecodeError
| AttributeError
| KeyError.

Global Instance exn_eq_dec : EqDecision exn.
Proof. solve_decision. Defined.

(** How a call ends: with a value, with an exception, or the calls of
    [start_game] inside one another have used up the depth they were
    given ([Diverge], only [start_game] can produce it). *)
Inductive outcome (A : Type) :=
| Ret (a : A)
| Raise (e : exn)
| Diverge.
Arguments Ret {A} a.
Arguments Raise {A} e.
Arguments Diverge {A}.

(** ** The move resolver *)

(** The literal of line 43 (and of [validate_move] in the client). *)
Definition valid_moves : list string := ["rock"; "paper"; "scissors"].

(** The dictionary of line 75. *)
Definition wins : gmap string string :=
  <["paper" := "rock"]> (<["scissors" := "paper"]> (<["rock" := "scissors"]> ∅)).

(** [get_result(move1, move2)].  A move is [None] or a [str]; [wins[move1]]
    raises [KeyError] on a key the dictionary does not have. *)
Definition get_result (move1 move2 : option string) : outcome string :=
  if decide (move1 = move2) then Ret "draw"
  else
    match move1 with
    | None => Raise KeyError
    | Some m1 =>
        match wins !! m1 with
        | None => Raise KeyError
        | Some w => Ret (if decide (Some w = move2) then "player1" else "player2")
        end
    end.

(** The cyclic relation in the words of the specification: rock beats
    scissors, scissors beats paper, paper beats rock. *)
Definition beats (x y : string) : Prop :=
  (x = "rock" ∧ y = "scissors") ∨
  (x = "scissors" ∧ y = "paper") ∨
  (x = "paper" ∧ y = "rock").

(** ** Connections and the game object *)

(** A websocket is an object; two of them are told apart by identity. *)
Definition handle := nat.

(** The state of one websocket as the server sees it: whether the
    connection is still open, the frames the peer sends from now on, in
    order, and the messages the server has sent on it, oldest first.
    A peer with no frame left is one that has gone: the [recv()] that
    finds the list empty finds the connection closed.  A peer that
    closes earlier, while the server is not reading, is the step
    [peer_closes] below.  A peer that stays connected and silent, on
    which [recv()] would wait for ever, has no counterpart here. *)
Record conn := Conn {
  alive : bool;
  inbox : list frame;
  outbox : list msg
}.

(** The attributes of a [RockPaperScissorsGame]. *)
Record game := Game {
  player1_ws : handle;
  player2_ws : handle;
  players : gmap handle (option string);
  game_over : bool
}.

(** [__init__]. *)
Definition new_game (player1_ws player2_ws : handle) : game :=
  {| player1_ws := player1_ws;
     player2_ws := player2_ws;
     players := <[player2_ws := None]> (<[player1_ws := None]> ∅);
     game_over := false |}.

(** The state a session runs in: its game object and the websockets. *)
Record state := State {
  self : game;
  net : gmap handle conn
}.

(** ** The monad of coroutines *)

Definition M (A : Type) : Type := state → outcome A * state.

Definition ret {A} (a : A) : M A := λ st, (Ret a, st).

Definition raise {A} (e : exn) : M A := λ st, (Raise e, st).

Definition bind {A B} (c : M A) (k : A → M B) : M B :=
  λ st,
    match c st with
    | (Ret a, st') => k a st'
    | (Raise e, st') => (Raise e, st')
    | (Diverge, st') => (Diverge, st')
    end.

Declare Scope coro_scope.
Delimit Scope coro_scope with coro.
Notation "x <- c ;; k" := (bind c (λ x, k))
  (at level 100, c at next level, right associativity) : coro_scope.
Notation "c ;; k" := (bind c (λ _, k))
  (at level 100, right associativity) : coro_scope.
Open Scope coro_scope.

(** [try: body except cls: handler].  The handler starts in the state the
    body had reached when it raised. *)
Definition try_except {A} (body : M A) (cls : exn) (handler : M A) : M A :=
  λ st,
    match body st with
    | (Raise e, st') => if decide (e = cls) then handler st' else (Raise e, st')
    | r => r
    end.

(** A pure call that may raise. *)
Definition lift {A} (o : outcome A) : M A := λ st, (o, st).

(** Attribute access and assignment on [self]. *)
Definition get_self : M game := λ st, (Ret (self st), st).

Definition set_players (p : gmap handle (option string)) : M unit :=
  λ st,
    let g := self st in
    (Ret tt, {| self := {| player1_ws := player1_ws g; player2_ws := player2_ws g;
                            players := p; game_over := game_over g |};
                net := net st |}).

Definition set_game_over (b : bool) : M unit :=
  λ st,
    let g := self st in
    (Ret tt, {| self := {| player1_ws := player1_ws g; player2_ws := player2_ws g;
                            players := players g; game_over := b |};
                net := net st |}).

(** ** The websocket operations

    The contract of the [websockets] library, as the server relies on it.
    [recv()] returns the next frame; when the peer has closed the
    connection it raises [ConnectionClosed], and from then on the
    connection is closed.  [send()] on a closed connection raises
    [ConnectionClosed]. A websocket the state does not know is a closed
    one. *)

Definition sock_recv (ws : handle) (n : gmap handle conn) :
  outcome frame * gmap handle conn :=
  match n !! ws with
  | Some c =>
      if alive c then
        match inbox c with
        | f :: rest =>
            (Ret f, <[ws := {| alive := true; inbox := rest; outbox := outbox c |}]> n)
        | [] =>
            (Raise ConnectionClosed,
             <[ws := {| alive := false; inbox := []; outbox := outbox c |}]> n)
        end
      else (Raise ConnectionClosed, n)
  | None => (Raise ConnectionClosed, n)
  end.

Definition sock_send (ws : handle) (m : msg) (n : gmap handle conn) :
  outcome unit * gmap handle conn :=
  match n !! ws with
  | Some c =>
      if alive c then
        (Ret tt, <[ws := {| alive := true; inbox := inbox c; outbox := outbox c ++ [m] |}]> n)
      else (Raise ConnectionClosed, n)
  | None => (Raise ConnectionClosed, n)
  end.

(** The two operations inside a session. *)
Definition on_net {A} (op : gmap handle conn → outcome A * gmap handle conn) : M A :=
  λ st, let '(r, n) := op (net st) in (r, {| self := self st; net := n |}).

Definition recv (ws : handle) : M frame := on_net (sock_recv ws).

Definition send (ws : handle) (m : msg) : M unit := on_net (sock_send ws m).

(** [json.loads(data)] on the two kinds of frame: a text that is not
    JSON raises [JSONDecodeError]. *)
Definition json_loads (data : frame) : M json :=
  match data with
  | Malformed _ => raise JSONDecodeError
  | Encoded v => ret v
  end.

(** [message.get(key)]: only a dictionary has [get]; a missing key gives
    [None], which is how a JSON [null] reads too. Of two members with
    the same name [json.loads] keeps the later one. *)
Definition member (key : string) (members : list (string * json)) : json :=
  default JNull ((list_to_map (reverse members) : gmap string json) !! key).

Definition dict_get (message : json) (key : string) : M json :=
  match message with
  | JObj members => ret (member key members)
  | _ => raise AttributeError
  end.

(** [move in ["rock", "paper", "scissors"]]: only a [str] is equal to a
    member of that list. *)
Definition as_valid_move (move : json) : option string :=
  match move with
  | JStr s => if decide (s ∈ valid_moves) then Some s else None
  | _ => None
  end.

(** [asyncio.gather(a, b)] of two coroutines of one session, in one of
    its schedules: [a] up to its end, then [b].  The two work on
    different websockets and different keys of [players], so what they
    return and what they leave behind is the same in every schedule.
    When both raise, [gather] hands the caller the exception that comes
    first in time; here that is [a]'s.  [gather] does not cancel the
    other coroutine, which runs on. *)
Definition gather {A B} (a : M A) (b : M B) : M (A * B) :=
  λ st,
    let '(ra, st1) := a st in
    let '(rb, st2) := b st1 in
    match ra, rb with
    | Ret x, Ret y => (Ret (x, y), st2)
    | Diverge, _ => (Diverge, st2)
    | Raise e, _ => (Raise e, st2)
    | Ret _, Raise e => (Raise e, st2)
    | Ret _, Diverge => (Diverge, st2)
    end.

(** ** The methods of [RockPaperScissorsGame] *)

Definition receive_move (websocket : handle) : M bool :=
  try_except
    (data <- recv websocket ;;
     message <- json_loads data ;;
     move <- dict_get message "move" ;;
     match as_valid_move move with
     | None =>
         send websocket (MError "Invalid move") ;;
         ret false
     | Some m =>
         g <- get_self ;;
         set_players (<[websocket := Some m]> (players g)) ;;
         ret true
     end)
    ConnectionClosed
    (ret false).

Definition broadcast (message : msg) : M unit :=
  g <- get_self ;;
  send (player1_ws g) message ;;
  send (player2_ws g) message.

(** [self.players[ws]] read: a missing key raises [KeyError]. *)
Definition players_at (ws : handle) : M (option string) :=
  g <- get_self ;;
  match players g !! ws with
  | Some move => ret move
  | None => raise KeyError
  end.

Definition determine_winner : M unit :=
  g <- get_self ;;
  move1 <- players_at (player1_ws g) ;;
  move2 <- players_at (player2_ws g) ;;
  result <- lift (get_result move1 move2) ;;
  broadcast (MResult move1 move2 result) ;;
  set_game_over true.

Definition is_yes (v : json) : bool :=
  match v with
  | JStr s => bool_decide (s = "yes")
  | _ => false
  end.

Definition receive_response (websocket : handle) : M bool :=
  try_except
    (data <- recv websocket ;;
     message <- json_loads data ;;
     answer <- dict_get message "rematch" ;;
     ret (is_yes answer))
    ConnectionClosed
    (ret false).

Definition reset_game : M unit :=
  g <- get_self ;;
  set_players (<[player2_ws g := None]> (<[player1_ws g := None]> ∅)) ;;
  set_game_over false.

(** [ask_for_rematch]; its call of [start_game] is the argument. *)
Definition ask_for_rematch (start_game : M unit) : M unit :=
  g <- get_self ;;
  broadcast MRematch ;;
  responses <- gather (receive_response (player1_ws g))
                      (receive_response (player2_ws g)) ;;
  if responses.1 && responses.2 then
    reset_game ;;
    start_game
  else
    broadcast (MEnd "Game over.").

(** ** The session coroutines *)

Definition your_move : msg :=
  MYourMove "Enter your move (rock, paper, or scissors):".

Definition round_error : msg :=
  MError "A player disconnected or made an invalid move.".

Definition start1 : msg := MStart "player1" "Game started. You are Player 1".

Definition start2 : msg := MStart "player2" "Game started. You are Player 2".

(** The first half of the body of the [while] of [game_loop]: the two
    prompts and the [gather] of the two moves. *)
Definition collect_moves : M (bool * bool) :=
  g <- get_self ;;
  send (player1_ws g) your_move ;;
  send (player2_ws g) your_move ;;
  gather (receive_move (player1_ws g)) (receive_move (player2_ws g)).

(** The body of the [while] of [game_loop]; both its paths end in
    [break]. *)
Definition game_round : M unit :=
  results <- collect_moves ;;
  if negb (results.1 && results.2) then
    broadcast round_error
  else
    determine_winner.

(** [game_loop]: the loop is entered when [game_over] is false and left
    by [break] after one pass; then comes [ask_for_rematch], on every
    path. *)
Definition game_loop (start_game : M unit) : M unit :=
  g <- get_self ;;
  (if negb (game_over g) then game_round else ret tt) ;;
  ask_for_rematch start_game.

(** [start_game].  It is called again from [ask_for_rematch], inside the
    call that is running: every rematch goes three calls deeper, and
    Python's recursion limit bounds how deep that can go.  [fuel] is the
    number of calls of [start_game] inside one another that there is
    room for.  When it is used up the run stops with [Diverge]; Python
    raises [RecursionError] there, somewhere inside the innermost
    round. *)
Fixpoint start_game (fuel : nat) : M unit :=
  match fuel with
  | O => λ st, (Diverge, st)
  | S fuel' =>
      g <- get_self ;;
      send (player1_ws g) start1 ;;
      send (player2_ws g) start2 ;;
      game_loop (start_game fuel')
  end.

(** ** The dispatcher *)

(** The operations of a Python list that [handler] uses on
    [waiting_players]. *)
Definition append (q : list handle) (h : handle) : list handle := q ++ [h].

(** [q.pop(0)]: the head and what is left; an empty list has none. *)
Definition pop0 (q : list handle) : option (handle * list handle) :=
  match q with
  | [] => None
  | h :: rest => Some (h, rest)
  end.

(** [q.remove(h)] deletes the first occurrence of [h]. *)
Fixpoint remove (h : handle) (q : list handle) : list handle :=
  match q with
  | [] => []
  | x :: rest => if decide (x = h) then rest else x :: remove h rest
  end.

(** [if h in q: q.remove(h)], the [finally] clause of [handler]. *)
Definition remove_if_present (h : handle) (q : list handle) : list handle :=
  if decide (h ∈ q) then remove h q else q.

(** What all handler coroutines share: the global [waiting_players] and
    the websockets. *)
Record world := World {
  waiting_players : list handle;
  sockets : gmap handle conn
}.

(** The frames player 1 has not sent yet. *)
Definition pending (st : state) : nat :=
  match net st !! player1_ws (self st) with
  | Some c => length (inbox c)
  | None => 0
  end.

(** A depth that is enough for a session: a further call of
    [start_game] needs a frame of player 1 to have been read. *)
Definition session_fuel (st : state) : nat := S (pending st).

(** How far a call of [handler] got: it is suspended in
    [wait_closed()], it returned, it raised, or its session ran out of
    depth. *)
Inductive progress :=
| Suspended
| Returned
| Raised (e : exn)
| Diverged.

(** [handler(websocket)] up to its end or up to [wait_closed()].  The
    [pop(0)] of the first branch comes before the first [await], and a
    websocket that takes this branch is never appended, so all that this
    call does to [waiting_players] is done when the session starts; the
    session itself runs here in one piece, with a depth that is enough
    for it (the recursion limit is taken to be out of reach). *)
Definition handler (websocket : handle) : world → progress * world :=
  λ w,
    match pop0 (waiting_players w) with
    | Some (opponent_ws, rest) =>
        let st := {| self := new_game opponent_ws websocket; net := sockets w |} in
        let '(r, st') := start_game (session_fuel st) st in
        let w' := {| waiting_players := remove_if_present websocket rest;
                     sockets := net st' |} in
        match r with
        | Ret _ => (Returned, w')
        | Raise ConnectionClosed => (Returned, w')
        | Raise e => (Raised e, w')
        | Diverge => (Diverged, w')
        end
    | None =>
        let q := append (waiting_players w) websocket in
        match sock_send websocket (MWaiting "Waiting for an opponent...") (sockets w) with
        | (Ret _, n) =>
            (Suspended, {| waiting_players := q; sockets := n |})
        | (Raise ConnectionClosed, n) =>
            (Returned, {| waiting_players := remove_if_present websocket q;
                          sockets := n |})
        | (Raise e, n) =>
            (Raised e, {| waiting_players := remove_if_present websocket q;
                          sockets := n |})
        | (Diverge, n) =>
            (Diverged, {| waiting_players := remove_if_present websocket q;
                          sockets := n |})
        end
    end.

(** The rest of a suspended [handler(websocket)]: the connection has
    closed, [wait_closed()] returns and the [finally] clause runs. *)
Definition handler_resume (websocket : handle) : world → world :=
  λ w,
    {| waiting_players := remove_if_present websocket (waiting_players w);
       sockets :=
         match sockets w !! websocket with
         | Some c =>
             <[websocket := {| alive := false; inbox := inbox c; outbox := outbox c |}]>
               (sockets w)
         | None => sockets w
         end |}.






(** ** Notions used in the statements *)

(** What the client of this repository sends: [{"move": move}] and
    [{"rematch": answer}]. *)
Definition move_frame (move : string) : frame :=
  Encoded (JObj [("move", JStr move)]).

Definition rematch_frame (answer : string) : frame :=
  Encoded (JObj [("rematch", JStr answer)]).

(** A session as [handler] creates it: two open websockets on which
    nothing has been sent, and the frames their peers are going to
    send. *)
Definition fresh_session (p1 p2 : handle) (frames1 frames2 : list frame) : state :=
  {| self := new_game p1 p2;
     net := <[p2 := {| alive := true; inbox := frames2; outbox := [] |}]>
              (<[p1 := {| alive := true; inbox := frames1; outbox := [] |}]> ∅) |}.

(** A coroutine respects a relation between the state it starts in and
    the state it leaves behind, however it ends. *)
Definition respects (R : state → state → Prop) {A} (c : M A) : Prop :=
  ∀ st, R st (c st).2.

(** The invariant of the move record: an entry is [None] or one of the
    three legal moves. *)
Definition record_ok (g : game) : Prop :=
  ∀ ws v, players g !! ws = Some v →
    v = None ∨ ∃ m, v = Some m ∧ m ∈ valid_moves.

(** What a peer sends over a session in which it plays [first], then
    answers "yes" and plays again for every move of [more], and then
    goes on with [last]. *)
Definition script (first : string) (more : list string) (last : list frame) :
  list frame :=
  move_frame first ::
  flat_map (λ m, [rematch_frame "yes"; move_frame m]) more ++ last.

(** The answer of the resolver as a string, for two legal moves. *)
Definition result_of (m1 m2 : string) : string :=
  match get_result (Some m1) (Some m2) with
  | Ret r => r
  | _ => ""
  end.

(** What one websocket is sent over resolved rounds with the given
    moves, each round followed by the "rematch" prompt; [start] is the
    start notice of that websocket. *)
Definition session_log (start : msg) (rounds : list (string * string)) : list msg :=
  flat_map (λ r, [start; your_move;
                  MResult (Some r.1) (Some r.2) (result_of r.1 r.2); MRematch])
           rounds.

(** A round in which both moves are legal ones. *)
Definition legal_round (r : string * string) : Prop :=
  r.1 ∈ valid_moves ∧ r.2 ∈ valid_moves.

(** How often a message occurs in what has been sent. *)
Definition occurrences (m : msg) (log : list msg) : nat :=
  length (filter (λ x, x = m) log).

(** A session with an illegal first move of player 1, in which both
    peers then ask for a rematch and play a second round. *)
Definition lizard_session : state :=
  fresh_session 1 2
    [move_frame "lizard"; rematch_frame "yes"; move_frame "rock"; rematch_frame "no"]
    [move_frame "rock"; rematch_frame "yes"; move_frame "scissors"; rematch_frame "no"].

(** A session of two rounds: both peers answer "yes" once. *)
Definition rematch_session : state :=
  fresh_session 1 2
    [move_frame "rock"; rematch_frame "yes"; move_frame "paper"; rematch_frame "no"]
    [move_frame "paper"; rematch_frame "yes"; move_frame "paper"; rematch_frame "yes"].

(** The session of two rounds beside a third websocket that is
    waiting. *)
Definition crowded_session : state :=
  {| self := self rematch_session;
     net := <[7 := {| alive := true; inbox := [move_frame "rock"]; outbox := [] |}]>
              (net rematch_session) |}.

(** A session whose peers send a text that is not JSON (player 1) and
    a JSON array (player 2). *)
Definition malformed_session : state :=
  fresh_session 1 2 [Malformed "rock"] [Encoded (JArr [JStr "rock"])].

(** The rematch vote when one peer has closed its connection instead of
    answering and the other one answers "no": player 1 has closed, and
    the other way round. *)
Definition player1_gone : state :=
  fresh_session 1 2 [] [rematch_frame "no"].

Definition player2_gone : state :=
  fresh_session 1 2 [rematch_frame "no"] [].


(** The peer of [ws] closes its connection while the server is not
    reading from it, for one after it has sent a frame: from then on
    [send] and [recv] on [ws] raise. *)
Definition peer_closes (ws : handle) (st : state) : state :=
  {| self := self st;
     net :=
       match net st !! ws with
       | Some c =>
           <[ws := {| alive := false; inbox := inbox c; outbox := outbox c |}]> (net st)
       | None => net st
       end |}.

(** A round of "rock" against "scissors", up to the point where both
    moves have been collected. *)
Definition rock_scissors_collected : state :=
  (collect_moves (fresh_session 1 2 [move_frame "rock"] [move_frame "scissors"])).2.

(** A state written out: the game object, the connections of two
    websockets, and the other websockets. *)
Definition duo (p1 p2 : handle) (others : gmap handle conn)
    (g : game) (c1 c2 : conn) : state :=
  {| self := g; net := <[p2 := c2]> (<[p1 := c1]> others) |}.

(** What one move collection does with a JSON object [{...}] that has
    arrived: whether it accepts it, what it stores, what it answers. *)
Definition accepted (members : list (string * json)) : bool :=
  bool_decide (is_Some (as_valid_move (member "move" members))).

Definition collected (ws : handle) (members : list (string * json))
    (pl : gmap handle (option string)) : gmap handle (option string) :=
  match as_valid_move (member "move" members) with
  | Some m => <[ws := Some m]> pl
  | None => pl
  end.

Definition reply_to_move (members : list (string * json)) : list msg :=
  match as_valid_move (member "move" members) with
  | Some _ => []
  | None => [MError "Invalid move"]
  end.

Definition keeps_record_ok (st st' : state) : Prop :=
  record_ok (self st) → record_ok (self st').

(** A coroutine that ends, with a value or an exception, in every
    state. *)
Definition total {A} (c : M A) : Prop := ∀ st, (c st).1 ≠ Diverge.

(** Player 1 stays the same websocket and has no more frames left to
    send than before. *)
Definition shrinks (st st' : state) : Prop :=
  player1_ws (self st') = player1_ws (self st) ∧ (pending st' ≤ pending st)%nat.

(** A websocket on which [send] and [recv] raise: its connection is
    closed, or the state does not know it. *)
Definition closed (st : state) (ws : handle) : Prop :=
  ∀ c, net st !! ws = Some c → alive c = false.

(** The exceptions of the model other than [KeyError]: a closed
    connection and the two ways in which a frame can fail to be a JSON
    object. *)
Definition expected (e : exn) : Prop :=
  e = ConnectionClosed ∨ e = JSONDecodeError ∨ e = AttributeError.

(** A call that returns, or raises one of these. *)
Definition ends_well {A} (r : outcome A) : Prop :=
  match r with
  | Ret _ => True
  | Raise e => expected e
  | Diverge => False
  end.

Definition raises_only {A} (c : M A) : Prop := ∀ st, ends_well (c st).1.

(** The two websockets of the game are the same ones in both states. *)
Definition same_players (st st' : state) : Prop :=
  player1_ws (self st') = player1_ws (self st) ∧
  player2_ws (self st') = player2_ws (self st).

(** The game keeps its two websockets, and every websocket other than
    [a] and [b] is as it was. *)
Definition within (a b : handle) (st st' : state) : Prop :=
  same_players st st' ∧
  ∀ x, x ≠ a → x ≠ b → net st' !! x = net st !! x.

(** A coroutine that, run for a game between [a] and [b], stays within
    these two websockets. *)
Definition confined (a b : handle) {A} (c : M A) : Prop :=
  ∀ st, player1_ws (self st) = a → player2_ws (self st) = b →
        within a b st (c st).2.

(** What has been sent on a websocket so far, for the dispatcher. *)
Definition delivered (w : world) (ws : handle) : list msg :=
  match sockets w !! ws with
  | Some c => outbox c
  | None => []
  end.

(** What has been sent on a websocket so far; nothing on one the state
    does not know. *)
Definition sent (st : state) (ws : handle) : list msg :=
  match net st !! ws with
  | Some c => outbox c
  | None => []
  end.

(** Messages are only ever added at the end of what has been sent, and
    the game stays with its two websockets. *)
Definition grows (st st' : state) : Prop :=
  player1_ws (self st') = player1_ws (self st) ∧
  player2_ws (self st') = player2_ws (self st) ∧
  ∀ ws, sent st ws `prefix_of` sent st' ws.

(** One round with the vote that follows it, as the two peers send
    them: the members of the JSON object each of them sends as its
    move, and of the one each sends as its answer. *)
Record exchange := Exchange {
  move_of_1 : list (string * json);
  answer_of_1 : list (string * json);
  move_of_2 : list (string * json);
  answer_of_2 : list (string * json)
}.

(** Both answers of the exchange are "yes". *)
Definition both_yes (x : exchange) : Prop :=
  member "rematch" (answer_of_1 x) = JStr "yes" ∧
  member "rematch" (answer_of_2 x) = JStr "yes".

(** What the two peers send over these exchanges, and [rest] after
    them. *)
Definition frames_of_1 (xs : list exchange) (rest : list frame) : list frame :=
  flat_map (λ x, [Encoded (JObj (move_of_1 x)); Encoded (JObj (answer_of_1 x))]) xs ++ rest.

Definition frames_of_2 (xs : list exchange) (rest : list frame) : list frame :=
  flat_map (λ x, [Encoded (JObj (move_of_2 x)); Encoded (JObj (answer_of_2 x))]) xs ++ rest.

(** What a websocket is sent in a round in which the two peers send the
    JSON objects [ms1] and [ms2]; [mine] is the one of its own peer. *)
Definition round_messages (mine ms1 ms2 : list (string * json)) : list msg :=
  your_move ::
  match as_valid_move (member "move" ms1), as_valid_move (member "move" ms2) with
  | Some m1, Some m2 => [MResult (Some m1) (Some m2) (result_of m1 m2)]
  | _, _ => reply_to_move mine ++ [round_error]
  end.

(** What a websocket is sent over these exchanges; [start] is its start
    notice and [mine] picks the move of its own peer. *)
Definition exchange_log (start : msg) (mine : exchange → list (string * json))
    (xs : list exchange) : list msg :=
  flat_map (λ x, start :: round_messages (mine x) (move_of_1 x) (move_of_2 x) ++ [MRematch])
           xs.

(** Between two states every websocket has been sent some more
    messages, all of them of the kind [P]. *)
Definition posts (P : msg → Prop) (st st' : state) : Prop :=
  ∀ ws, ∃ added, sent st' ws = sent st ws ++ added ∧ Forall P added.

(** A message that is neither a start notice nor the prompt for a
    move. *)
Definition inside_round (m : msg) : Prop :=
  m ≠ start1 ∧ m ≠ start2 ∧ m ≠ your_move.

(** The session of [lizard_session] written as one exchange and what
    follows it. *)
Definition lizard_exchange : exchange :=
  {| move_of_1 := [("move", JStr "lizard")]; answer_of_1 := [("rematch", JStr "yes")];
     move_of_2 := [("move", JStr "rock")]; answer_of_2 := [("rematch", JStr "yes")] |}.

(** ** The client ([rps_client.py])

    The client is modelled against this server: a frame that arrives
    is one of the messages the server sends, or a JSON object of some
    other type. *)

(** [validate_move(move)], with the list of the client. *)
Definition validate_move (move : string) : bool :=
  bool_decide (move ∈ ["rock"; "paper"; "scissors"]).

(** [answer in ["yes", "no"]]. *)
Definition validate_answer (answer : string) : bool :=
  bool_decide (answer ∈ ["yes"; "no"]).

(** What appears on the terminal: a line of [print], or the prompt of
    an [input]. *)
Inductive out :=
| Print (line : string)
| Prompt (text : string).

(** The two loops [while not ok(x): x = input(prompt).strip().lower();
    if not ok(x): print(complaint)], entered with [x = ""], for which
    [ok] is false.  [clean] stands for [.strip().lower()]; [lines] are
    the lines the user is going to type.  When they are used up [input]
    raises [EOFError]: no answer. *)
Fixpoint ask_until (clean : string → string) (ok : string → bool)
    (prompt complaint : string) (lines : list string) (console : list out) :
    option string * list string * list out :=
  match lines with
  | [] => (None, [], console ++ [Prompt prompt])
  | line :: rest =>
      let x := clean line in
      if ok x then (Some x, rest, console ++ [Prompt prompt])
      else
        ask_until clean ok prompt complaint rest
          (console ++ [Prompt prompt; Print complaint])
  end.

Definition ask_move (clean : string → string) :=
  ask_until clean validate_move
    "Enter your move (rock, paper, or scissors): "
    "Invalid move. Please enter 'rock', 'paper', or 'scissors'.".

Definition ask_rematch (clean : string → string) :=
  ask_until clean validate_answer
    "Do you want to play again? (yes/no): "
    "Invalid response. Please enter 'yes' or 'no'.".

(** A frame as the client sees it. *)
Inductive arrival :=
| Known (m : msg)
| Unknown (shown : string).

(** The variables of [play]: [player], what is left of the user's
    input, the terminal, how many frames the connection still takes
    (a [send] beyond that raises [ConnectionClosed]), and the frames
    sent. *)
Record client := Client {
  player : option string;
  keyboard : list string;
  console : list out;
  sendable : nat;
  leaving : list frame
}.

Definition say (line : string) (c : client) : client :=
  {| player := player c; keyboard := keyboard c;
     console := console c ++ [Print line];
     sendable := sendable c; leaving := leaving c |}.

(** [websocket.send(json.dumps(...))]. *)
Definition client_send (f : frame) (c : client) : option client :=
  match sendable c with
  | O => None
  | S n =>
      Some {| player := player c; keyboard := keyboard c; console := console c;
              sendable := n; leaving := leaving c ++ [f] |}
  end.

(** A move in an f-string. *)
Definition show_move (move : option string) : string :=
  match move with
  | Some s => s
  | None => "None"
  end.

(** What the client prints under the two moves of a "result". *)
Definition verdict (player : option string) (result : string) : string :=
  if bool_decide (result = "draw") then "Draw!"
  else if (bool_decide (result = "player1") && bool_decide (player = Some "player1"))
          || (bool_decide (result = "player2") && bool_decide (player = Some "player2"))
  then "You won!"
  else "You lost.".

(** How one pass of the [while True] of [play] ends: with the next
    pass, with [break], or with the [EOFError] of an [input]. *)
Inductive pass :=
| Continue
| Break
| Crash.

(** An [input] loop and the [send] of its answer, inside the [try]. *)
Definition answer_with (ask : list string → list out → option string * list string * list out)
    (wrap : string → frame) (c : client) : pass * client :=
  match ask (keyboard c) (console c) with
  | (None, lines, con) =>
      (Crash, {| player := player c; keyboard := lines; console := con;
                 sendable := sendable c; leaving := leaving c |})
  | (Some x, lines, con) =>
      let c' := {| player := player c; keyboard := lines; console := con;
                   sendable := sendable c; leaving := leaving c |} in
      match client_send (wrap x) c' with
      | Some c'' => (Continue, c'')
      | None => (Break, say "Connection closed" c')
      end
  end.

(** The body of the [try] for one frame that has arrived. *)
Definition on_message (clean : string → string) (a : arrival) (c : client) :
    pass * client :=
  match a with
  | Known (MWaiting message) => (Continue, say message c)
  | Known (MStart p message) =>
      (Continue,
       say message {| player := Some p; keyboard := keyboard c; console := console c;
                      sendable := sendable c; leaving := leaving c |})
  | Known (MYourMove message) =>
      answer_with (ask_move clean) move_frame (say message c)
  | Known (MResult move1 move2 result) =>
      (Continue,
       say (verdict (player c) result)
         (say (String.append "Player 2 chose: " (show_move move2))
            (say (String.append "Player 1 chose: " (show_move move1)) c)))
  | Known MRematch => answer_with (ask_rematch clean) rematch_frame c
  | Known (MEnd _) => (Break, say "Game over." c)
  | Known (MError message) => (Break, say (String.append "Error: " message) c)
  | Unknown shown => (Continue, say (String.append "Unknown message: " shown) c)
  end.

(** The loop of [play] over the frames that arrive; when there are no
    more, [recv] raises [ConnectionClosed]. *)
Fixpoint play_loop (clean : string → string) (arriving : list arrival) (c : client) :
    pass * client :=
  match arriving with
  | [] => (Break, say "Connection closed" c)
  | a :: rest =>
      match on_message clean a c with
      | (Continue, c') => play_loop clean rest c'
      | end_of_loop => end_of_loop
      end
  end.

(** [play()]. *)
Definition play (clean : string → string) (arriving : list arrival)
    (lines : list string) (budget : nat) : pass * client :=
  play_loop clean arriving
    {| player := None; keyboard := lines; console := []; sendable := budget;
       leaving := [] |}.

(** ** Notions for the client *)

(** A frame the protocol expects from a client: a move that the
    server's test accepts, or "yes" or "no" to a rematch. *)
Definition proper_answer (f : frame) : Prop :=
  (∃ mv, f = move_frame mv ∧ accepted [("move", JStr mv)] = true) ∨
  f = rematch_frame "yes" ∨ f = rematch_frame "no".

(** The frames that ask the client for an answer. *)
Definition is_prompt (a : arrival) : bool :=
  match a with
  | Known (MYourMove _) | Known MRematch => true
  | _ => false
  end.

(** The frames after which [play] leaves its loop. *)
Definition is_final (a : arrival) : bool :=
  match a with
  | Known (MEnd _) | Known (MError _) => true
  | _ => false
  end.

(** What a player should read under a result, given its own move and
    the other player's. *)
Definition outcome_line (mine theirs : string) : string :=
  if decide (mine = theirs) then "Draw!"
  else if decide (wins !! mine = Some theirs) then "You won!"
  else "You lost.".

(** What the terminal shows for lines that were not accepted. *)
Definition complaints (prompt complaint : string) (bad : list string) : list out :=
  flat_map (λ _, [Prompt prompt; Print complaint]) bad.

(** * Properties *)

(** ** The move resolver *)

Lemma valid_moves_cases (x : string) :
  x ∈ valid_moves → x = "rock" ∨ x = "paper" ∨ x = "scissors".
Proof. unfold valid_moves. rewrite !elem_of_cons, elem_of_nil. tauto. Qed.

Ltac legal_cases H :=
  apply valid_moves_cases in H; destruct H as [-> | [-> | ->]].

(** C3. Equal legal choices give a draw; for distinct legal choices the
    first player wins exactly when its choice beats the other one in the
    cycle rock > scissors > paper > rock, and the second player wins
    otherwise.  In particular rock/scissors is "player1", scissors/rock
    is "player2" and paper/paper is "draw". *)
Theorem get_result_cycle (x y : string) :
  x ∈ valid_moves → y ∈ valid_moves →
  get_result (Some x) (Some x) = Ret "draw" ∧
  (x ≠ y →
     (beats x y → get_result (Some x) (Some y) = Ret "player1") ∧
     (¬ beats x y → get_result (Some x) (Some y) = Ret "player2")) ∧
  get_result (Some "rock") (Some "scissors") = Ret "player1" ∧
  get_result (Some "scissors") (Some "rock") = Ret "player2" ∧
  get_result (Some "paper") (Some "paper") = Ret "draw".
Proof.
  intros Hx Hy. split; [| split; [| by repeat split]].
  - unfold get_result. by rewrite decide_True.
  - intros Hne. legal_cases Hx; legal_cases Hy; try done;
      split; intros Hb;
      first [ by vm_compute
            | by destruct Hb as [[? ?] | [[? ?] | [? ?]]]
            | exfalso; apply Hb; unfold beats; tauto ].
Qed.

Lemma get_result_cycle_witness :
  get_result (Some "paper") (Some "paper") = Ret "draw" ∧
  ("paper" ≠ "rock" →
     (beats "paper" "rock" → get_result (Some "paper") (Some "rock") = Ret "player1") ∧
     (¬ beats "paper" "rock" → get_result (Some "paper") (Some "rock") = Ret "player2")) ∧
  get_result (Some "rock") (Some "scissors") = Ret "player1" ∧
  get_result (Some "scissors") (Some "rock") = Ret "player2" ∧
  get_result (Some "paper") (Some "paper") = Ret "draw".
Proof.
  apply (get_result_cycle "paper" "rock"); unfold valid_moves; set_solver.
Defined.

(** C10. On distinct legal choices the resolver is antisymmetric: the
    first player wins one way round exactly when the second player wins
    the other way round; it never answers "draw" there, and on any two
    legal choices it answers "player1", "player2" or "draw". *)
Theorem get_result_antisym (x y : string) :
  x ∈ valid_moves → y ∈ valid_moves →
  (x ≠ y →
     (get_result (Some x) (Some y) = Ret "player1" ↔
      get_result (Some y) (Some x) = Ret "player2") ∧
     get_result (Some x) (Some y) ≠ Ret "draw") ∧
  (get_result (Some x) (Some y) = Ret "player1" ∨
   get_result (Some x) (Some y) = Ret "player2" ∨
   get_result (Some x) (Some y) = Ret "draw").
Proof.
  intros Hx Hy. split.
  - intros Hne. legal_cases Hx; legal_cases Hy; try done;
      (split; [split; intros H |]);
      first [ by vm_compute | by vm_compute in H ].
  - legal_cases Hx; legal_cases Hy; vm_compute; auto.
Qed.

Lemma get_result_antisym_witness :
  ("rock" ≠ "paper" →
     (get_result (Some "rock") (Some "paper") = Ret "player1" ↔
      get_result (Some "paper") (Some "rock") = Ret "player2") ∧
     get_result (Some "rock") (Some "paper") ≠ Ret "draw") ∧
  (get_result (Some "rock") (Some "paper") = Ret "player1" ∨
   get_result (Some "rock") (Some "paper") = Ret "player2" ∨
   get_result (Some "rock") (Some "paper") = Ret "draw").
Proof.
  apply (get_result_antisym "rock" "paper"); unfold valid_moves; set_solver.
Defined.

(** ** Relations that every coroutine of a session respects *)

Section Respects.
Variable R : state → state → Prop.
Hypothesis R_refl : ∀ st, R st st.
Hypothesis R_trans : ∀ a b c, R a b → R b c → R a c.

Lemma respects_ret {A} (a : A) : respects R (ret a).
Proof. intros st. apply R_refl. Qed.

Lemma respects_raise {A} (e : exn) : respects R (raise e : M A).
Proof. intros st. apply R_refl. Qed.

Lemma respects_lift {A} (o : outcome A) : respects R (lift o).
Proof. intros st. apply R_refl. Qed.

Lemma respects_bind {A B} (c : M A) (k : A → M B) :
  respects R c → (∀ a, respects R (k a)) → respects R (bind c k).
Proof.
  intros Hc Hk st. unfold bind. specialize (Hc st).
  destruct (c st) as [[a | e |] st1]; simpl in *; try done.
  eapply R_trans; [exact Hc | apply Hk].
Qed.

Lemma respects_get_self {A} (k : game → M A) :
  (∀ st, R st (k (self st) st).2) → respects R (bind get_self k).
Proof. intros Hk st. apply Hk. Qed.

Lemma respects_with_self {A} (k : game → M A) :
  (∀ g, respects R (k g)) → respects R (bind get_self k).
Proof. intros Hk. apply respects_get_self. intros st. apply Hk. Qed.

Lemma respects_try_except {A} (body : M A) (cls : exn) (h : M A) :
  respects R body → respects R h → respects R (try_except body cls h).
Proof.
  intros Hb Hh st. unfold try_except. specialize (Hb st).
  destruct (body st) as [[a | e |] st1]; simpl in *; try done.
  destruct (decide (e = cls)); simpl; [| done].
  eapply R_trans; [exact Hb | apply Hh].
Qed.

Lemma respects_gather {A B} (a : M A) (b : M B) :
  respects R a → respects R b → respects R (gather a b).
Proof.
  intros Ha Hb st. unfold gather. specialize (Ha st).
  destruct (a st) as [ra st1]. specialize (Hb st1).
  destruct (b st1) as [rb st2]. simpl in *.
  assert (R st st2) by (eapply R_trans; eauto).
  by destruct ra, rb.
Qed.

Hypothesis R_recv : ∀ ws, respects R (recv ws).
Hypothesis R_send : ∀ ws m, respects R (send ws m).
Hypothesis R_store : ∀ ws m st,
  m ∈ valid_moves →
  R st (set_players (<[ws := Some m]> (players (self st))) st).2.
Hypothesis R_reset : ∀ st,
  R st (set_players (<[player2_ws (self st) := None]>
                       (<[player1_ws (self st) := None]> ∅)) st).2.
Hypothesis R_over : ∀ b, respects R (set_game_over b).

Lemma respects_json_loads data : respects R (json_loads data).
Proof. destruct data; [apply respects_raise | apply respects_ret]. Qed.

Lemma respects_dict_get message key : respects R (dict_get message key).
Proof. destruct message; first [apply respects_raise | apply respects_ret]. Qed.

Lemma as_valid_move_Some move m :
  as_valid_move move = Some m → move = JStr m ∧ m ∈ valid_moves.
Proof.
  destruct move; simpl; try done. case_decide; [| done].
  by intros [= ->].
Qed.

Lemma respects_receive_move ws : respects R (receive_move ws).
Proof.
  apply respects_try_except; [| apply respects_ret].
  apply respects_bind; [apply R_recv |]. intros data.
  apply respects_bind; [apply respects_json_loads |]. intros message.
  apply respects_bind; [apply respects_dict_get |]. intros move.
  destruct (as_valid_move move) as [m |] eqn:Hm.
  - apply as_valid_move_Some in Hm as [_ Hm].
    apply respects_get_self. intros st. unfold bind.
    specialize (R_store ws m st Hm).
    by destruct (set_players _ st) as [[[] | |] st1].
  - apply respects_bind; [apply R_send | intros; apply respects_ret].
Qed.

Lemma respects_broadcast m : respects R (broadcast m).
Proof.
  apply respects_with_self. intros g.
  apply respects_bind; [apply R_send | intros; apply R_send].
Qed.

Lemma respects_players_at ws : respects R (players_at ws).
Proof.
  apply respects_get_self. intros st.
  destruct (players (self st) !! ws); apply R_refl.
Qed.

Lemma respects_determine_winner : respects R determine_winner.
Proof.
  apply respects_with_self. intros g.
  apply respects_bind; [apply respects_players_at |]. intros move1.
  apply respects_bind; [apply respects_players_at |]. intros move2.
  apply respects_bind; [apply respects_lift |]. intros result.
  apply respects_bind; [apply respects_broadcast | intros; apply R_over].
Qed.

Lemma respects_receive_response ws : respects R (receive_response ws).
Proof.
  apply respects_try_except; [| apply respects_ret].
  apply respects_bind; [apply R_recv |]. intros data.
  apply respects_bind; [apply respects_json_loads |]. intros message.
  apply respects_bind; [apply respects_dict_get |]. intros answer.
  apply respects_ret.
Qed.

Lemma respects_reset_game : respects R reset_game.
Proof.
  apply respects_get_self. intros st. unfold bind.
  specialize (R_reset st).
  destruct (set_players _ st) as [[[] | |] st1]; simpl in *; try done.
  eapply R_trans; [exact R_reset | apply R_over].
Qed.

Lemma respects_rematch_decision (k : M unit) (rs : bool * bool) :
  respects R k →
  respects R (if rs.1 && rs.2 then reset_game ;; k
              else broadcast (MEnd "Game over.")).
Proof.
  intros Hk. destruct (rs.1 && rs.2).
  - apply respects_bind; [apply respects_reset_game | done].
  - apply respects_broadcast.
Qed.

Lemma respects_ask_for_rematch (k : M unit) :
  respects R k → respects R (ask_for_rematch k).
Proof.
  intros Hk. apply respects_with_self. intros g.
  apply respects_bind; [apply respects_broadcast |]. intros _.
  apply respects_bind.
  - apply respects_gather; apply respects_receive_response.
  - intros rs. by apply respects_rematch_decision.
Qed.

Lemma respects_collect_moves : respects R collect_moves.
Proof.
  apply respects_with_self. intros g.
  apply respects_bind; [apply R_send |]. intros _.
  apply respects_bind; [apply R_send |]. intros _.
  apply respects_gather; apply respects_receive_move.
Qed.

Lemma respects_game_round : respects R game_round.
Proof.
  apply respects_bind; [apply respects_collect_moves |]. intros rs.
  destruct (negb _); [apply respects_broadcast | apply respects_determine_winner].
Qed.

Lemma respects_game_loop (k : M unit) :
  respects R k → respects R (game_loop k).
Proof.
  intros Hk. apply respects_with_self. intros g.
  apply respects_bind; [| intros; by apply respects_ask_for_rematch].
  destruct (negb _); [apply respects_game_round | apply respects_ret].
Qed.

Lemma respects_start_game fuel : respects R (start_game fuel).
Proof.
  induction fuel as [| fuel IH]; [intros st; apply R_refl |].
  apply respects_with_self. intros g.
  apply respects_bind; [apply R_send |]. intros _.
  apply respects_bind; [apply R_send |]. intros _.
  by apply respects_game_loop.
Qed.
End Respects.

(** ** The move record *)

Ltac run_coro :=
  unfold try_except, bind, recv, send, on_net, sock_recv, sock_send,
    json_loads, dict_get, get_self, set_players, set_game_over, ret, raise, lift;
  simpl.

(** C9. A move collection that returns [False], whether because the
    move was not a legal one or because the connection was closed,
    leaves the whole move record as it was: the entry of that websocket
    and the entry of the other one. *)
Theorem receive_move_false_keeps_record (ws : handle) (st : state) :
  (receive_move ws st).1 = Ret false →
  players (self (receive_move ws st).2) = players (self st).
Proof.
  unfold receive_move. run_coro.
  destruct (net st !! ws) as [c |]; simpl; [| done].
  destruct (alive c); simpl; [| done].
  destruct (inbox c) as [| [raw | v] rest]; simpl; try done.
  destruct v; simpl; try done.
  destruct (as_valid_move _); run_coro; [done |].
  rewrite lookup_insert_eq. simpl. done.
Qed.

Lemma receive_move_false_keeps_record_witness :
  let st := fresh_session 1 2 [move_frame "lizard"] [move_frame "rock"] in
  (receive_move 1 st).1 = Ret false ∧
  players (self (receive_move 1 st).2) = players (self st).
Proof.
  split; [by vm_compute |].
  apply receive_move_false_keeps_record. by vm_compute.
Defined.

Lemma record_ok_insert_None (ws : handle) (p : gmap handle (option string)) :
  (∀ ws' v, p !! ws' = Some v → v = None ∨ ∃ m, v = Some m ∧ m ∈ valid_moves) →
  ∀ ws' v, <[ws := None]> p !! ws' = Some v →
    v = None ∨ ∃ m : string, v = Some m ∧ m ∈ valid_moves.
Proof.
  intros Hp ws' v. destruct (decide (ws = ws')) as [-> | Hne].
  - rewrite lookup_insert_eq. intros [= <-]. by left.
  - rewrite lookup_insert_ne by done. apply Hp.
Qed.

Lemma record_ok_new_game p1 p2 : record_ok (new_game p1 p2).
Proof.
  unfold record_ok, new_game; simpl.
  apply record_ok_insert_None, record_ok_insert_None.
  intros ws' v. by rewrite lookup_empty.
Qed.

Lemma start_game_keeps_record_ok fuel :
  respects keeps_record_ok (start_game fuel).
Proof.
  apply respects_start_game; unfold keeps_record_ok.
  - done.
  - intros a b c Hab Hbc Ha. auto.
  - intros ws st. unfold recv, on_net. by destruct (sock_recv _ _).
  - intros ws m st. unfold send, on_net. by destruct (sock_send _ _ _).
  - intros ws m st Hm Hok ws' v. simpl.
    destruct (decide (ws = ws')) as [-> | Hne].
    + rewrite lookup_insert_eq. intros [= <-]. right. eauto.
    + rewrite lookup_insert_ne by done. apply Hok.
  - intros st _. unfold record_ok. simpl.
    apply record_ok_insert_None, record_ok_insert_None.
    intros ws' v. by rewrite lookup_empty.
  - intros b st Hok. exact Hok.
Qed.

(** C8. The move record only ever holds [None] or one of "rock",
    "paper", "scissors": this is so when the game is created, every move
    collection keeps it so, and so does a whole session with its resets.
    A move collection changes the record only by storing a legal move
    for its websocket, and a payload whose move is not a legal one is
    answered with [False] and an error, with nothing stored. *)
Theorem move_record_stays_legal (st : state) :
  record_ok (self st) →
  (∀ p1 p2, record_ok (new_game p1 p2)) ∧
  (∀ ws, record_ok (self (receive_move ws st).2)) ∧
  (∀ fuel, record_ok (self (start_game fuel st).2)) ∧
  (∀ ws,
     players (self (receive_move ws st).2) = players (self st) ∨
     ∃ m, m ∈ valid_moves ∧
       players (self (receive_move ws st).2) = <[ws := Some m]> (players (self st))) ∧
  (∀ ws c members rest,
     net st !! ws = Some c → alive c = true →
     inbox c = Encoded (JObj members) :: rest →
     as_valid_move (member "move" members) = None →
     receive_move ws st =
       (Ret false,
        {| self := self st;
           net := <[ws := {| alive := true; inbox := rest;
                             outbox := outbox c ++ [MError "Invalid move"] |}]>
                    (net st) |})).
Proof.
  intros Hok. split; [apply record_ok_new_game |].
  assert (Hstep : ∀ ws,
     players (self (receive_move ws st).2) = players (self st) ∨
     ∃ m, m ∈ valid_moves ∧
       players (self (receive_move ws st).2) = <[ws := Some m]> (players (self st))).
  { intros ws. unfold receive_move. run_coro.
    destruct (net st !! ws) as [c |]; simpl; [| by left].
    destruct (alive c); simpl; [| by left].
    destruct (inbox c) as [| [raw | v] rest]; simpl; try by left.
    destruct v; simpl; try by left.
    destruct (as_valid_move _) as [m |] eqn:Hm; run_coro.
    - right. exists m. split; [| done].
      by apply as_valid_move_Some in Hm as [_ Hm].
    - rewrite lookup_insert_eq. simpl. by left. }
  split; [| split; [| split; [exact Hstep |]]].
  - intros ws ws' v. destruct (Hstep ws) as [-> | (m & Hm & ->)]; [apply Hok |].
    destruct (decide (ws = ws')) as [-> | Hne].
    + rewrite lookup_insert_eq. intros [= <-]. right. eauto.
    + rewrite lookup_insert_ne by done. apply Hok.
  - intros fuel. by apply start_game_keeps_record_ok.
  - intros ws c members rest Hc Ha Hin Hbad.
    unfold receive_move. run_coro. rewrite Hc. simpl. rewrite Ha, Hin. simpl.
    rewrite Hbad. run_coro. rewrite lookup_insert_eq. simpl.
    by rewrite insert_insert_eq.
Qed.

Lemma move_record_stays_legal_witness :
  let st := fresh_session 1 2 [move_frame "lizard"] [move_frame "rock"] in
  record_ok (self (receive_move 2 (receive_move 1 st).2).2) ∧
  receive_move 1 st =
    (Ret false,
     {| self := self st;
        net := <[1 := {| alive := true; inbox := [];
                         outbox := [MError "Invalid move"] |}]> (net st) |}).
Proof.
  pose (st := fresh_session 1 2 [move_frame "lizard"] [move_frame "rock"]).
  assert (H0 : record_ok (self st)) by apply record_ok_new_game.
  destruct (move_record_stays_legal st H0) as (_ & H1 & _ & _ & H5).
  split.
  - destruct (move_record_stays_legal _ (H1 1)) as (_ & H2 & _). apply H2.
  - apply (H5 1 {| alive := true; inbox := [move_frame "lizard"]; outbox := [] |}
              [("move", JStr "lizard")] []); by vm_compute.
Defined.

(** ** Payloads that fail validation *)

Lemma is_yes_true (v : json) : is_yes v = true ↔ v = JStr "yes".
Proof.
  destruct v; simpl; try done.
  rewrite bool_decide_eq_true. split; [by intros -> | by intros [= ->]].
Qed.

(** A payload that decodes to a JSON object never makes
    [receive_move] or [receive_response] raise: each returns a value,
    and that value is [False] when the move is not a legal one,
    respectively when the answer is not "yes". *)
Lemma object_payload_returns (ws : handle) (st : state) (c : conn)
    (members : list (string * json)) (rest : list frame) :
  net st !! ws = Some c →
  inbox c = Encoded (JObj members) :: rest →
  (∃ b, (receive_move ws st).1 = Ret b ∧
        (as_valid_move (member "move" members) = None → b = false)) ∧
  (∃ b, (receive_response ws st).1 = Ret b ∧
        (member "rematch" members ≠ JStr "yes" → b = false)).
Proof.
  intros Hc Hin. split.
  - unfold receive_move. run_coro. rewrite Hc. simpl.
    destruct (alive c); simpl; [| by exists false].
    rewrite Hin. simpl.
    destruct (as_valid_move _) as [m |]; run_coro.
    + by exists true.
    + rewrite lookup_insert_eq. simpl. by exists false.
  - unfold receive_response. run_coro. rewrite Hc. simpl.
    destruct (alive c); simpl; [| by exists false].
    rewrite Hin. simpl. eexists. split; [done |].
    intros Hno. apply not_true_is_false. by rewrite is_yes_true.
Qed.

(** C4 at its failing inputs. A frame that is not JSON makes
    [json.loads] raise [JSONDecodeError] inside [receive_move] and inside
    [receive_response], and a frame that is JSON but not an object makes
    [message.get] raise [AttributeError].  Only [ConnectionClosed] is
    caught there, so no failure value is returned: the exception leaves
    the operation, the session and the handler that runs it. *)
Theorem malformed_frame_raises :
  (receive_move 1 malformed_session).1 = Raise JSONDecodeError ∧
  (receive_response 1 malformed_session).1 = Raise JSONDecodeError ∧
  (receive_move 2 malformed_session).1 = Raise AttributeError ∧
  (receive_response 2 malformed_session).1 = Raise AttributeError ∧
  (start_game 1 malformed_session).1 = Raise JSONDecodeError ∧
  (handler 2 {| waiting_players := [1]; sockets := net malformed_session |}).1 =
    Raised JSONDecodeError.
Proof. by vm_compute. Qed.

(** ** Running the coroutines on two open websockets *)

Section TwoHandles.
Variables p1 p2 : handle.
Hypothesis Hne : p1 ≠ p2.
Variable others : gmap handle conn.

Local Abbreviation two := (duo p1 p2 others).

Lemma duo_lookup1 g c1 c2 : net (two g c1 c2) !! p1 = Some c1.
Proof. simpl. rewrite lookup_insert_ne by done. apply lookup_insert_eq. Qed.

Lemma duo_lookup2 g c1 c2 : net (two g c1 c2) !! p2 = Some c2.
Proof. simpl. apply lookup_insert_eq. Qed.

Lemma duo_set1 g c1 c2 c1' :
  {| self := g; net := <[p1 := c1']> (net (two g c1 c2)) |} = two g c1' c2.
Proof.
  unfold duo. simpl. f_equal.
  rewrite insert_insert_ne by done. by rewrite insert_insert_eq.
Qed.

Lemma duo_set2 g c1 c2 c2' :
  {| self := g; net := <[p2 := c2']> (net (two g c1 c2)) |} = two g c1 c2'.
Proof. unfold duo. simpl. f_equal. by rewrite insert_insert_eq. Qed.

Lemma send1 g i1 o1 c2 m :
  send p1 m (two g (Conn true i1 o1) c2) = (Ret tt, two g (Conn true i1 (o1 ++ [m])) c2).
Proof.
  unfold send, on_net, sock_send. rewrite duo_lookup1. simpl.
  by rewrite <- (duo_set1 g (Conn true i1 o1) c2).
Qed.

Lemma send2 g c1 i2 o2 m :
  send p2 m (two g c1 (Conn true i2 o2)) = (Ret tt, two g c1 (Conn true i2 (o2 ++ [m]))).
Proof.
  unfold send, on_net, sock_send. rewrite duo_lookup2. simpl.
  by rewrite <- (duo_set2 g c1 (Conn true i2 o2)).
Qed.

Lemma send1_closed g i1 o1 c2 m :
  send p1 m (two g (Conn false i1 o1) c2) =
    (Raise ConnectionClosed, two g (Conn false i1 o1) c2).
Proof. unfold send, on_net, sock_send. by rewrite duo_lookup1. Qed.

Lemma send2_closed g c1 i2 o2 m :
  send p2 m (two g c1 (Conn false i2 o2)) =
    (Raise ConnectionClosed, two g c1 (Conn false i2 o2)).
Proof. unfold send, on_net, sock_send. by rewrite duo_lookup2. Qed.

Lemma recv1 g f i1 o1 c2 :
  recv p1 (two g (Conn true (f :: i1) o1) c2) = (Ret f, two g (Conn true i1 o1) c2).
Proof.
  unfold recv, on_net, sock_recv. rewrite duo_lookup1. simpl.
  by rewrite <- (duo_set1 g (Conn true (f :: i1) o1) c2).
Qed.

Lemma recv2 g c1 f i2 o2 :
  recv p2 (two g c1 (Conn true (f :: i2) o2)) = (Ret f, two g c1 (Conn true i2 o2)).
Proof.
  unfold recv, on_net, sock_recv. rewrite duo_lookup2. simpl.
  by rewrite <- (duo_set2 g c1 (Conn true (f :: i2) o2)).
Qed.

Lemma recv1_end g o1 c2 :
  recv p1 (two g (Conn true [] o1) c2) =
    (Raise ConnectionClosed, two g (Conn false [] o1) c2).
Proof.
  unfold recv, on_net, sock_recv. rewrite duo_lookup1. simpl.
  by rewrite <- (duo_set1 g (Conn true [] o1) c2).
Qed.

Lemma recv2_end g c1 o2 :
  recv p2 (two g c1 (Conn true [] o2)) =
    (Raise ConnectionClosed, two g c1 (Conn false [] o2)).
Proof.
  unfold recv, on_net, sock_recv. rewrite duo_lookup2. simpl.
  by rewrite <- (duo_set2 g c1 (Conn true [] o2)).
Qed.

(** One move collection, by what the peer sends. *)

Lemma receive_move1_valid a b pl ov ms m i1 o1 c2 :
  as_valid_move (member "move" ms) = Some m →
  receive_move p1 (two (Game a b pl ov) (Conn true (Encoded (JObj ms) :: i1) o1) c2) =
    (Ret true, two (Game a b (<[p1 := Some m]> pl) ov) (Conn true i1 o1) c2).
Proof.
  intros Hm. unfold receive_move, try_except, bind at 1. rewrite recv1.
  unfold bind, json_loads, dict_get, ret. simpl. by rewrite Hm.
Qed.

Lemma receive_move2_valid a b pl ov ms m c1 i2 o2 :
  as_valid_move (member "move" ms) = Some m →
  receive_move p2 (two (Game a b pl ov) c1 (Conn true (Encoded (JObj ms) :: i2) o2)) =
    (Ret true, two (Game a b (<[p2 := Some m]> pl) ov) c1 (Conn true i2 o2)).
Proof.
  intros Hm. unfold receive_move, try_except, bind at 1. rewrite recv2.
  unfold bind, json_loads, dict_get, ret. simpl. by rewrite Hm.
Qed.

Lemma receive_move1_invalid g ms i1 o1 c2 :
  as_valid_move (member "move" ms) = None →
  receive_move p1 (two g (Conn true (Encoded (JObj ms) :: i1) o1) c2) =
    (Ret false, two g (Conn true i1 (o1 ++ [MError "Invalid move"])) c2).
Proof.
  intros Hm. unfold receive_move, try_except, bind at 1. rewrite recv1.
  unfold bind at 1, json_loads, ret. unfold bind at 1, dict_get, ret.
  rewrite Hm. unfold bind. by rewrite send1.
Qed.

Lemma receive_move2_invalid g ms c1 i2 o2 :
  as_valid_move (member "move" ms) = None →
  receive_move p2 (two g c1 (Conn true (Encoded (JObj ms) :: i2) o2)) =
    (Ret false, two g c1 (Conn true i2 (o2 ++ [MError "Invalid move"]))).
Proof.
  intros Hm. unfold receive_move, try_except, bind at 1. rewrite recv2.
  unfold bind at 1, json_loads, ret. unfold bind at 1, dict_get, ret.
  rewrite Hm. unfold bind. by rewrite send2.
Qed.

(** One rematch answer, by what the peer sends. *)

Lemma receive_response1 g ms i1 o1 c2 :
  receive_response p1 (two g (Conn true (Encoded (JObj ms) :: i1) o1) c2) =
    (Ret (is_yes (member "rematch" ms)), two g (Conn true i1 o1) c2).
Proof. unfold receive_response, try_except, bind at 1. by rewrite recv1. Qed.

Lemma receive_response2 g c1 ms i2 o2 :
  receive_response p2 (two g c1 (Conn true (Encoded (JObj ms) :: i2) o2)) =
    (Ret (is_yes (member "rematch" ms)), two g c1 (Conn true i2 o2)).
Proof. unfold receive_response, try_except, bind at 1. by rewrite recv2. Qed.

Lemma receive_response1_end g o1 c2 :
  receive_response p1 (two g (Conn true [] o1) c2) =
    (Ret false, two g (Conn false [] o1) c2).
Proof. unfold receive_response, try_except, bind at 1. by rewrite recv1_end. Qed.

Lemma receive_response2_end g c1 o2 :
  receive_response p2 (two g c1 (Conn true [] o2)) =
    (Ret false, two g c1 (Conn false [] o2)).
Proof. unfold receive_response, try_except, bind at 1. by rewrite recv2_end. Qed.

Lemma broadcast_open pl ov i1 o1 i2 o2 m :
  broadcast m (two (Game p1 p2 pl ov) (Conn true i1 o1) (Conn true i2 o2)) =
    (Ret tt, two (Game p1 p2 pl ov) (Conn true i1 (o1 ++ [m])) (Conn true i2 (o2 ++ [m]))).
Proof.
  unfold broadcast, bind at 1, get_self. simpl.
  unfold bind. by rewrite send1, send2.
Qed.
Lemma receive_move1 a b pl ov ms i1 o1 c2 :
  receive_move p1 (two (Game a b pl ov) (Conn true (Encoded (JObj ms) :: i1) o1) c2) =
    (Ret (accepted ms),
     two (Game a b (collected p1 ms pl) ov) (Conn true i1 (o1 ++ reply_to_move ms)) c2).
Proof.
  unfold accepted, collected, reply_to_move.
  destruct (as_valid_move (member "move" ms)) as [m |] eqn:Hm.
  - rewrite app_nil_r. by apply receive_move1_valid.
  - by apply receive_move1_invalid.
Qed.

Lemma receive_move2 a b pl ov ms c1 i2 o2 :
  receive_move p2 (two (Game a b pl ov) c1 (Conn true (Encoded (JObj ms) :: i2) o2)) =
    (Ret (accepted ms),
     two (Game a b (collected p2 ms pl) ov) c1 (Conn true i2 (o2 ++ reply_to_move ms))).
Proof.
  unfold accepted, collected, reply_to_move.
  destruct (as_valid_move (member "move" ms)) as [m |] eqn:Hm.
  - rewrite app_nil_r. by apply receive_move2_valid.
  - by apply receive_move2_invalid.
Qed.

(** The prompts and the two collections, when both peers send a JSON
    object. *)
Lemma collect_moves_objects pl ov ms1 i1 o1 ms2 i2 o2 :
  collect_moves (two (Game p1 p2 pl ov)
                     (Conn true (Encoded (JObj ms1) :: i1) o1)
                     (Conn true (Encoded (JObj ms2) :: i2) o2)) =
    (Ret (accepted ms1, accepted ms2),
     two (Game p1 p2 (collected p2 ms2 (collected p1 ms1 pl)) ov)
         (Conn true i1 (o1 ++ your_move :: reply_to_move ms1))
         (Conn true i2 (o2 ++ your_move :: reply_to_move ms2))).
Proof.
  unfold collect_moves, bind at 1, get_self. simpl.
  unfold bind at 1. rewrite send1. unfold bind. rewrite send2.
  unfold gather. rewrite receive_move1, receive_move2.
  by rewrite <- !app_assoc.
Qed.

Lemma determine_winner_open pl ov i1 o1 i2 o2 mv1 mv2 r :
  pl !! p1 = Some mv1 → pl !! p2 = Some mv2 →
  get_result mv1 mv2 = Ret r →
  determine_winner (two (Game p1 p2 pl ov) (Conn true i1 o1) (Conn true i2 o2)) =
    (Ret tt,
     two (Game p1 p2 pl true)
         (Conn true i1 (o1 ++ [MResult mv1 mv2 r]))
         (Conn true i2 (o2 ++ [MResult mv1 mv2 r]))).
Proof.
  intros H1 H2 Hr.
  unfold determine_winner, players_at, bind, get_self, lift, ret. simpl.
  rewrite H1. simpl. rewrite H2. simpl. rewrite Hr.
  by rewrite broadcast_open.
Qed.

(** The rematch vote, when both peers answer with a JSON object. *)
Lemma ask_for_rematch_objects (k : M unit) pl ov ms1 i1 o1 ms2 i2 o2 :
  ask_for_rematch k (two (Game p1 p2 pl ov)
                         (Conn true (Encoded (JObj ms1) :: i1) o1)
                         (Conn true (Encoded (JObj ms2) :: i2) o2)) =
    if is_yes (member "rematch" ms1) && is_yes (member "rematch" ms2) then
      k (two (Game p1 p2 (<[p2 := None]> (<[p1 := None]> ∅)) false)
             (Conn true i1 (o1 ++ [MRematch])) (Conn true i2 (o2 ++ [MRematch])))
    else
      (Ret tt,
       two (Game p1 p2 pl ov)
           (Conn true i1 (o1 ++ [MRematch; MEnd "Game over."]))
           (Conn true i2 (o2 ++ [MRematch; MEnd "Game over."]))).
Proof.
  unfold ask_for_rematch, bind at 1, get_self. simpl.
  unfold bind at 1. rewrite broadcast_open.
  unfold bind at 1, gather. rewrite receive_response1, receive_response2. simpl.
  destruct (is_yes (member "rematch" ms1) && is_yes (member "rematch" ms2)).
  - reflexivity.
  - rewrite broadcast_open. by rewrite <- !app_assoc.
Qed.
Lemma collected_both pl ms1 ms2 m1 m2 :
  as_valid_move (member "move" ms1) = Some m1 →
  as_valid_move (member "move" ms2) = Some m2 →
  collected p2 ms2 (collected p1 ms1 pl) = <[p2 := Some m2]> (<[p1 := Some m1]> pl).
Proof. intros H1 H2. unfold collected. by rewrite H1, H2. Qed.

(** A round in which both moves are accepted. *)
Lemma game_round_resolved pl ov ms1 i1 o1 ms2 i2 o2 m1 m2 r :
  as_valid_move (member "move" ms1) = Some m1 →
  as_valid_move (member "move" ms2) = Some m2 →
  get_result (Some m1) (Some m2) = Ret r →
  game_round (two (Game p1 p2 pl ov)
                  (Conn true (Encoded (JObj ms1) :: i1) o1)
                  (Conn true (Encoded (JObj ms2) :: i2) o2)) =
    (Ret tt,
     two (Game p1 p2 (<[p2 := Some m2]> (<[p1 := Some m1]> pl)) true)
         (Conn true i1 (o1 ++ [your_move; MResult (Some m1) (Some m2) r]))
         (Conn true i2 (o2 ++ [your_move; MResult (Some m1) (Some m2) r]))).
Proof.
  intros H1 H2 Hr. unfold game_round, bind. rewrite collect_moves_objects.
  rewrite (collected_both pl ms1 ms2 m1 m2 H1 H2).
  unfold accepted, reply_to_move. rewrite H1, H2. simpl.
  rewrite (determine_winner_open _ _ _ _ _ _ (Some m1) (Some m2) r); try done.
  - by rewrite <- !app_assoc.
  - rewrite lookup_insert_ne by done. apply lookup_insert_eq.
  - apply lookup_insert_eq.
Qed.

(** A round in which a move is not accepted. *)
Lemma game_round_rejected pl ov ms1 i1 o1 ms2 i2 o2 :
  accepted ms1 && accepted ms2 = false →
  game_round (two (Game p1 p2 pl ov)
                  (Conn true (Encoded (JObj ms1) :: i1) o1)
                  (Conn true (Encoded (JObj ms2) :: i2) o2)) =
    (Ret tt,
     two (Game p1 p2 (collected p2 ms2 (collected p1 ms1 pl)) ov)
         (Conn true i1 (o1 ++ your_move :: reply_to_move ms1 ++ [round_error]))
         (Conn true i2 (o2 ++ your_move :: reply_to_move ms2 ++ [round_error]))).
Proof.
  intros Hrej. unfold game_round, bind. rewrite collect_moves_objects.
  simpl. rewrite Hrej. simpl. rewrite broadcast_open.
  by rewrite <- !app_assoc.
Qed.
End TwoHandles.

(** ** Resolving a round *)

Lemma get_result_valid (m1 m2 : string) :
  m1 ∈ valid_moves → m2 ∈ valid_moves →
  ∃ r, get_result (Some m1) (Some m2) = Ret r.
Proof.
  intros H1 H2. legal_cases H1; legal_cases H2; eexists; by vm_compute.
Qed.

Lemma accepted_true (ms : list (string * json)) :
  accepted ms = true →
  ∃ m, as_valid_move (member "move" ms) = Some m ∧ m ∈ valid_moves.
Proof.
  unfold accepted. rewrite bool_decide_eq_true. intros [m Hm].
  exists m. split; [done |]. by apply as_valid_move_Some in Hm as [_ Hm].
Qed.

Lemma receive_move_true_inv (ws : handle) (st st' : state) :
  receive_move ws st = (Ret true, st') →
  ∃ c ms rest,
    net st !! ws = Some c ∧ alive c = true ∧
    inbox c = Encoded (JObj ms) :: rest ∧ accepted ms = true.
Proof.
  unfold receive_move. run_coro.
  destruct (net st !! ws) as [c |]; simpl; [| done].
  destruct (alive c) eqn:Ha; simpl; [| done].
  destruct (inbox c) as [| [raw | v] rest] eqn:Hin; simpl; try done.
  destruct v; simpl; try done.
  destruct (as_valid_move _) as [m |] eqn:Hm; run_coro.
  - intros _. eexists c, members, rest. repeat split; try done.
    unfold accepted. rewrite Hm. apply bool_decide_eq_true. eauto.
  - rewrite lookup_insert_eq. simpl. done.
Qed.

Lemma gather_both_true {A B} (a : M A) (b : M B) (x : A) (y : B) (st st2 : state) :
  gather a b st = (Ret (x, y), st2) →
  ∃ st1, a st = (Ret x, st1) ∧ b st1 = (Ret y, st2).
Proof.
  unfold gather. destruct (a st) as [ra st1].
  destruct (b st1) as [rb st2'] eqn:Hb.
  destruct ra, rb; intros [=]; subst; eauto.
Qed.

Lemma state_as_duo (p1 p2 : handle) (st : state) (c1 c2 : conn) :
  net st !! p1 = Some c1 → net st !! p2 = Some c2 →
  st = duo p1 p2 (net st) (self st) c1 c2.
Proof.
  intros H1 H2. destruct st as [g n]. unfold duo. simpl in *. f_equal.
  rewrite (insert_id n p1 c1 H1). by rewrite (insert_id n p2 c2 H2).
Qed.

Lemma send_ok_inv (ws : handle) (m : msg) (st st' : state) :
  send ws m st = (Ret tt, st') →
  ∃ i o, net st !! ws = Some (Conn true i o).
Proof.
  unfold send, on_net, sock_send.
  destruct (net st !! ws) as [[[] i o] |]; simpl; try done. eauto.
Qed.

(** When both collections of a round return [True], both peers had an
    accepted JSON object at the head of what they send. *)
Lemma collect_moves_both_inv (st st1 : state) :
  player1_ws (self st) ≠ player2_ws (self st) →
  collect_moves st = (Ret (true, true), st1) →
  ∃ ms1 i1 o1 ms2 i2 o2,
    st = duo (player1_ws (self st)) (player2_ws (self st)) (net st) (self st)
             (Conn true (Encoded (JObj ms1) :: i1) o1)
             (Conn true (Encoded (JObj ms2) :: i2) o2) ∧
    accepted ms1 = true ∧ accepted ms2 = true.
Proof.
  destruct st as [[p1 p2 pl ov] n]. simpl. intros Hne.
  unfold collect_moves, bind at 1, get_self. simpl.
  unfold bind at 1.
  destruct (send p1 your_move _) as [[[] | e |] sta] eqn:Hs1; try done.
  apply send_ok_inv in Hs1 as Hl1. destruct Hl1 as (i1 & o1 & Hl1). simpl in Hl1.
  unfold bind.
  destruct (send p2 your_move sta) as [[[] | e |] stb] eqn:Hs2; try done.
  apply send_ok_inv in Hs2 as Hl2. destruct Hl2 as (i2 & o2 & Hl2).
  assert (Hn2 : ∃ o2', n !! p2 = Some (Conn true i2 o2')).
  { revert Hs1 Hl2. unfold send, on_net, sock_send. simpl. rewrite Hl1. simpl.
    intros [= <-]. simpl. rewrite lookup_insert_ne by done. eauto. }
  destruct Hn2 as (o2' & Hn2).
  pose proof (state_as_duo p1 p2 (State (Game p1 p2 pl ov) n) _ _ Hl1 Hn2) as Hst.
  simpl in Hst. rewrite Hst in Hs1. rewrite send1 in Hs1 by done.
  injection Hs1 as <-. rewrite send2 in Hs2 by done. injection Hs2 as <-.
  intros Hg. apply gather_both_true in Hg as (stc & Ha & Hb).
  apply receive_move_true_inv in Ha as Hia.
  destruct Hia as (c & ms1 & r1 & Hc & _ & Hin1 & Hacc1).
  rewrite duo_lookup1 in Hc by done. injection Hc as <-. simpl in Hin1. subst i1.
  rewrite receive_move1 in Ha by done. injection Ha as _ <-.
  apply receive_move_true_inv in Hb as Hib.
  destruct Hib as (c & ms2 & r2 & Hc & _ & Hin2 & Hacc2).
  rewrite duo_lookup2 in Hc. injection Hc as <-. simpl in Hin2. subst i2.
  exists ms1, r1, o1, ms2, r2, o2'. by rewrite Hst at 1.
Qed.

Lemma sent_duo1 (p1 p2 : handle) others g c1 c2 :
  p1 ≠ p2 → sent (duo p1 p2 others g c1 c2) p1 = outbox c1.
Proof. intros Hne. unfold sent. by rewrite duo_lookup1. Qed.

Lemma sent_duo2 (p1 p2 : handle) others g c1 c2 :
  sent (duo p1 p2 others g c1 c2) p2 = outbox c2.
Proof. unfold sent. by rewrite duo_lookup2. Qed.

(** C5, as the code has it. When both move collections of a round
    succeed, the round goes on to [determine_winner] with the two moves
    stored, and the resolver has an answer for them.  When the two
    connections are open at that point, whatever else has happened to
    the websockets since the collections, one "result" message with the
    two moves and that answer is sent to each of the two websockets,
    and [game_over] is set.  With "rock" from player 1 and "scissors"
    from player 2 both websockets get move1 = "rock",
    move2 = "scissors", result = "player1". *)
Theorem both_collected_resolves_while_open (st st1 st2 : state) :
  player1_ws (self st) ≠ player2_ws (self st) →
  collect_moves st = (Ret (true, true), st1) →
  self st2 = self st1 →
  (∃ c1, net st2 !! player1_ws (self st) = Some c1 ∧ alive c1 = true) →
  (∃ c2, net st2 !! player2_ws (self st) = Some c2 ∧ alive c2 = true) →
  (game_round st = determine_winner st1 ∧
   ∃ m1 m2 r,
     players (self st1) !! player1_ws (self st) = Some (Some m1) ∧
     players (self st1) !! player2_ws (self st) = Some (Some m2) ∧
     get_result (Some m1) (Some m2) = Ret r ∧
     (determine_winner st2).1 = Ret tt ∧
     sent (determine_winner st2).2 (player1_ws (self st)) =
       sent st2 (player1_ws (self st)) ++ [MResult (Some m1) (Some m2) r] ∧
     sent (determine_winner st2).2 (player2_ws (self st)) =
       sent st2 (player2_ws (self st)) ++ [MResult (Some m1) (Some m2) r] ∧
     game_over (self (determine_winner st2).2) = true) ∧
  (let round := game_round (fresh_session 1 2 [move_frame "rock"] [move_frame "scissors"]) in
   sent round.2 1 = [your_move; MResult (Some "rock") (Some "scissors") "player1"] ∧
   sent round.2 2 = [your_move; MResult (Some "rock") (Some "scissors") "player1"] ∧
   game_over (self round.2) = true).
Proof.
  intros Hne Hcol Hself (c1 & Hc1 & Ha1) (c2 & Hc2 & Ha2).
  split; [| by vm_compute].
  split; [unfold game_round, bind; by rewrite Hcol |].
  destruct (collect_moves_both_inv st st1 Hne Hcol)
    as (ms1 & i1 & o1 & ms2 & i2 & o2 & Hst & Hacc1 & Hacc2).
  destruct st as [[p1 p2 pl ov] n]. simpl in *.
  apply accepted_true in Hacc1 as (m1 & Hm1 & Hv1).
  apply accepted_true in Hacc2 as (m2 & Hm2 & Hv2).
  destruct (get_result_valid m1 m2 Hv1 Hv2) as [r Hr].
  rewrite Hst in Hcol. rewrite collect_moves_objects in Hcol by done.
  injection Hcol as _ _ <-.
  rewrite (collected_both p1 p2 pl ms1 ms2 m1 m2 Hm1 Hm2) in *.
  cbn [self duo players] in *.
  assert (Hl1 : (<[p2 := Some m2]> (<[p1 := Some m1]> pl)) !! p1 = Some (Some m1)).
  { rewrite lookup_insert_ne by done. apply lookup_insert_eq. }
  assert (Hl2 : (<[p2 := Some m2]> (<[p1 := Some m1]> pl)) !! p2 = Some (Some m2))
    by apply lookup_insert_eq.
  exists m1, m2, r. split; [done |]. split; [done |]. split; [done |].
  destruct c1 as [a1 j1 q1], c2 as [a2 j2 q2]. simpl in Ha1, Ha2. subst a1 a2.
  rewrite (state_as_duo p1 p2 st2 _ _ Hc1 Hc2). rewrite Hself.
  rewrite (determine_winner_open p1 p2 Hne (net st2) _ ov j1 q1 j2 q2
             (Some m1) (Some m2) r Hl1 Hl2 Hr).
  cbn [fst snd]. rewrite !sent_duo1, !sent_duo2 by done. done.
Qed.

Lemma both_collected_resolves_while_open_witness :
  ∃ m1 m2 r,
    players (self (collect_moves
       (fresh_session 1 2 [move_frame "paper"] [move_frame "scissors"])).2) !! 1
      = Some (Some m1) ∧
    players (self (collect_moves
       (fresh_session 1 2 [move_frame "paper"] [move_frame "scissors"])).2) !! 2
      = Some (Some m2) ∧
    get_result (Some m1) (Some m2) = Ret r ∧
    sent (determine_winner
            (collect_moves
               (fresh_session 1 2 [move_frame "paper"] [move_frame "scissors"])).2).2 1 =
      sent (collect_moves
              (fresh_session 1 2 [move_frame "paper"] [move_frame "scissors"])).2 1
        ++ [MResult (Some m1) (Some m2) r].
Proof.
  assert (Hne : player1_ws (self (fresh_session 1 2 [move_frame "paper"]
                                    [move_frame "scissors"])) ≠
                player2_ws (self (fresh_session 1 2 [move_frame "paper"]
                                    [move_frame "scissors"]))) by (by vm_compute).
  assert (Hcol : collect_moves (fresh_session 1 2 [move_frame "paper"] [move_frame "scissors"]) =
                 (Ret (true, true),
                  (collect_moves
                     (fresh_session 1 2 [move_frame "paper"] [move_frame "scissors"])).2))
    by (by vm_compute).
  assert (Ho1 : ∃ c1, net (collect_moves
                  (fresh_session 1 2 [move_frame "paper"] [move_frame "scissors"])).2
                  !! player1_ws (self (fresh_session 1 2 [move_frame "paper"]
                                         [move_frame "scissors"])) = Some c1 ∧
                alive c1 = true)
    by (exists (Conn true [] [your_move]); by vm_compute).
  assert (Ho2 : ∃ c2, net (collect_moves
                  (fresh_session 1 2 [move_frame "paper"] [move_frame "scissors"])).2
                  !! player2_ws (self (fresh_session 1 2 [move_frame "paper"]
                                         [move_frame "scissors"])) = Some c2 ∧
                alive c2 = true)
    by (exists (Conn true [] [your_move]); by vm_compute).
  destruct (both_collected_resolves_while_open _ _ _ Hne Hcol eq_refl Ho1 Ho2)
    as [(_ & m1 & m2 & r & H1 & H2 & Hr & _ & Hs1 & _) _].
  exists m1, m2, r. repeat split; assumption.
Defined.

(** C5 as stated fails.  Both collections succeed, and then player 1,
    which has sent its move, closes its connection: the broadcast of
    the result raises [ConnectionClosed] at player 1, player 2, still
    connected, is sent no "result" message, and [game_over] stays
    false. *)
Lemma result_lost_when_player1_leaves :
  (collect_moves (fresh_session 1 2 [move_frame "rock"] [move_frame "scissors"])).1 =
    Ret (true, true) ∧
  players (self rock_scissors_collected) !! 1 = Some (Some "rock") ∧
  players (self rock_scissors_collected) !! 2 = Some (Some "scissors") ∧
  (determine_winner (peer_closes 1 rock_scissors_collected)).1 = Raise ConnectionClosed ∧
  sent (determine_winner (peer_closes 1 rock_scissors_collected)).2 2 = [your_move] ∧
  game_over (self (determine_winner (peer_closes 1 rock_scissors_collected)).2) = false.
Proof. by vm_compute. Qed.

(** ** What is sent only grows *)

Lemma grows_refl (st : state) : grows st st.
Proof. by repeat split. Qed.

Lemma grows_trans (a b c : state) : grows a b → grows b c → grows a c.
Proof.
  intros (H1 & H2 & H3) (H4 & H5 & H6). repeat split; try congruence.
  intros ws. trans (sent b ws); [apply H3 | apply H6].
Qed.

Lemma sent_insert (st : state) (ws ws' : handle) (c : conn) :
  sent {| self := self st; net := <[ws := c]> (net st) |} ws' =
    if decide (ws = ws') then outbox c else sent st ws'.
Proof.
  unfold sent. simpl. case_decide as Heq.
  - subst. by rewrite lookup_insert_eq.
  - by rewrite lookup_insert_ne.
Qed.

Lemma send_self (ws : handle) (m : msg) (st : state) :
  self (send ws m st).2 = self st.
Proof. unfold send, on_net. by destruct (sock_send _ _ _). Qed.

Lemma recv_self (ws : handle) (st : state) : self (recv ws st).2 = self st.
Proof. unfold recv, on_net. by destruct (sock_recv _ _). Qed.

(** A [send] adds its message once, to its own websocket, or nothing
    when it raises. *)
Lemma send_sent (ws : handle) (m : msg) (st : state) (ws' : handle) :
  ∃ k, sent (send ws m st).2 ws' = sent st ws' ++ repeat m k.
Proof.
  unfold send, on_net, sock_send.
  destruct (net st !! ws) as [c |] eqn:Hc; simpl; [| exists 0; by rewrite app_nil_r].
  destruct (alive c); simpl; [| exists 0; by rewrite app_nil_r].
  rewrite sent_insert. case_decide as Heq; simpl.
  - subst. exists 1. unfold sent. by rewrite Hc.
  - exists 0. by rewrite app_nil_r.
Qed.

Lemma recv_sent (ws : handle) (st : state) (ws' : handle) :
  sent (recv ws st).2 ws' = sent st ws'.
Proof.
  unfold recv, on_net, sock_recv.
  destruct (net st !! ws) as [c |] eqn:Hc; simpl; [| done].
  destruct (alive c); simpl; [| done].
  destruct (inbox c); simpl; rewrite sent_insert; case_decide; subst; try done;
    unfold sent; by rewrite Hc.
Qed.

Lemma grows_recv (ws : handle) : respects grows (recv ws).
Proof.
  intros st. unfold grows. rewrite recv_self. repeat split.
  intros ws'. by rewrite recv_sent.
Qed.

Lemma grows_send (ws : handle) (m : msg) : respects grows (send ws m).
Proof.
  intros st. unfold grows. rewrite send_self. repeat split.
  intros ws'. destruct (send_sent ws m st ws') as [k ->]. by apply prefix_app_r.
Qed.

Lemma grows_store (ws : handle) (m : string) (st : state) :
  m ∈ valid_moves →
  grows st (set_players (<[ws := Some m]> (players (self st))) st).2.
Proof. by repeat split. Qed.

Lemma grows_reset (st : state) :
  grows st (set_players (<[player2_ws (self st) := None]>
                           (<[player1_ws (self st) := None]> ∅)) st).2.
Proof. by repeat split. Qed.

Lemma grows_over (b : bool) : respects grows (set_game_over b).
Proof. intros st. by repeat split. Qed.

Lemma start_game_grows (fuel : nat) : respects grows (start_game fuel).
Proof.
  apply respects_start_game;
    [ apply grows_refl | apply grows_trans | apply grows_recv | apply grows_send
    | apply grows_store | apply grows_reset | apply grows_over ].
Qed.

Lemma collect_moves_grows : respects grows collect_moves.
Proof.
  apply respects_collect_moves;
    [ apply grows_refl | apply grows_trans | apply grows_recv | apply grows_send
    | apply grows_store ].
Qed.

Lemma rematch_vote_grows (k : M unit) (g : game) :
  respects grows k →
  respects grows
    (responses <- gather (receive_response (player1_ws g))
                         (receive_response (player2_ws g)) ;;
     if responses.1 && responses.2 then reset_game ;; k
     else broadcast (MEnd "Game over.")).
Proof.
  intros Hk. apply (respects_bind grows grows_trans).
  - apply (respects_gather grows grows_trans);
      apply (respects_receive_response grows grows_refl grows_trans grows_recv).
  - intros rs.
    apply (respects_rematch_decision grows grows_trans grows_send grows_reset
             grows_over k rs Hk).
Qed.

(** On two open websockets [ask_for_rematch] first of all sends the
    "rematch" prompt to both. *)
Lemma ask_for_rematch_prompts (p1 p2 : handle) others (k : M unit) pl ov i1 o1 i2 o2 :
  p1 ≠ p2 → respects grows k →
  (o1 ++ [MRematch]) `prefix_of`
    sent (ask_for_rematch k (duo p1 p2 others (Game p1 p2 pl ov)
                                 (Conn true i1 o1) (Conn true i2 o2))).2 p1 ∧
  (o2 ++ [MRematch]) `prefix_of`
    sent (ask_for_rematch k (duo p1 p2 others (Game p1 p2 pl ov)
                                 (Conn true i1 o1) (Conn true i2 o2))).2 p2.
Proof.
  intros Hne Hk.
  assert (Hstep :
    ask_for_rematch k (duo p1 p2 others (Game p1 p2 pl ov)
                           (Conn true i1 o1) (Conn true i2 o2)) =
    (responses <- gather (receive_response p1) (receive_response p2) ;;
     if responses.1 && responses.2 then reset_game ;; k
     else broadcast (MEnd "Game over."))
      (duo p1 p2 others (Game p1 p2 pl ov)
           (Conn true i1 (o1 ++ [MRematch])) (Conn true i2 (o2 ++ [MRematch])))).
  { unfold ask_for_rematch, bind at 1, get_self. simpl.
    unfold bind at 1. by rewrite broadcast_open. }
  rewrite Hstep.
  destruct (rematch_vote_grows k (Game p1 p2 pl ov) Hk
              (duo p1 p2 others (Game p1 p2 pl ov)
                   (Conn true i1 (o1 ++ [MRematch])) (Conn true i2 (o2 ++ [MRematch]))))
    as (_ & _ & Hpre).
  split.
  - specialize (Hpre p1). rewrite sent_duo1 in Hpre by done. exact Hpre.
  - specialize (Hpre p2). rewrite sent_duo2 in Hpre. exact Hpre.
Qed.

Lemma broadcast_self (m : msg) (st : state) : self (broadcast m st).2 = self st.
Proof.
  unfold broadcast, bind, get_self. simpl.
  pose proof (send_self (player1_ws (self st)) m st) as H1.
  destruct (send (player1_ws (self st)) m st) as [[[] | e |] st1]; simpl in *; try done.
  by rewrite send_self.
Qed.

Lemma broadcast_sent (m : msg) (st : state) (ws' : handle) :
  ∃ k, sent (broadcast m st).2 ws' = sent st ws' ++ repeat m k.
Proof.
  unfold broadcast, bind, get_self. simpl.
  destruct (send_sent (player1_ws (self st)) m st ws') as [k1 H1].
  destruct (send (player1_ws (self st)) m st) as [[[] | e |] st1]; simpl in *; eauto.
  destruct (send_sent (player2_ws (self st)) m st1 ws') as [k2 H2].
  exists (k1 + k2). by rewrite H2, H1, repeat_app, app_assoc.
Qed.

(** ** A round in which a move collection fails *)

(** C1, as the code has it. When a move collection of a round fails (a
    closed connection or a move that is not legal), the round computes
    no result: all it does after the collections is the broadcast of
    the error notice, which leaves the game object as it is and adds
    nothing but that notice to what has been sent.  When both
    websockets are still open then, each of them gets the notice exactly
    once, the round ends normally, and the session does not end there:
    the next thing sent to both websockets is the "rematch" prompt. *)
Theorem failed_collection_round (st st1 : state) (r1 r2 : bool) :
  collect_moves st = (Ret (r1, r2), st1) →
  r1 && r2 = false →
  (game_round st = broadcast round_error st1 ∧
   self (game_round st).2 = self st1 ∧
   ∀ ws, ∃ k, sent (game_round st).2 ws = sent st1 ws ++ repeat round_error k) ∧
  (∀ c1 c2,
     player1_ws (self st) ≠ player2_ws (self st) →
     net st1 !! player1_ws (self st) = Some c1 → alive c1 = true →
     net st1 !! player2_ws (self st) = Some c2 → alive c2 = true →
     (game_round st).1 = Ret tt ∧
     sent (game_round st).2 (player1_ws (self st)) = outbox c1 ++ [round_error] ∧
     sent (game_round st).2 (player2_ws (self st)) = outbox c2 ++ [round_error] ∧
     (game_over (self st) = false →
      ∀ fuel,
        (outbox c1 ++ [round_error; MRematch]) `prefix_of`
          sent (game_loop (start_game fuel) st).2 (player1_ws (self st)) ∧
        (outbox c2 ++ [round_error; MRematch]) `prefix_of`
          sent (game_loop (start_game fuel) st).2 (player2_ws (self st)))).
Proof.
  intros Hcol Hfail.
  assert (Hround : game_round st = broadcast round_error st1).
  { unfold game_round, bind. rewrite Hcol. simpl. by rewrite Hfail. }
  split.
  - rewrite Hround. split; [done |]. split; [apply broadcast_self |].
    apply broadcast_sent.
  - intros c1 c2 Hne H1 Ha1 H2 Ha2.
    destruct (collect_moves_grows st) as (Hp1 & Hp2 & _).
    rewrite Hcol in Hp1, Hp2. simpl in Hp1, Hp2.
    destruct st1 as [[q1 q2 pl ov] n]. simpl in *. subst q1 q2.
    destruct c1 as [a1 i1 o1], c2 as [a2 i2 o2]. simpl in *. subst a1 a2.
    set (p1 := player1_ws (self st)) in *. set (p2 := player2_ws (self st)) in *.
    pose proof (state_as_duo p1 p2 (State (Game p1 p2 pl ov) n) _ _ H1 H2) as Hst1.
    simpl in Hst1. rewrite Hst1 in Hround. rewrite broadcast_open in Hround by done.
    rewrite Hround. simpl fst. simpl snd.
    rewrite sent_duo1 by done. rewrite sent_duo2. simpl.
    split; [done |]. split; [done |]. split; [done |].
    intros Hov fuel.
    destruct (ask_for_rematch_prompts p1 p2 n (start_game fuel) pl ov
                i1 (o1 ++ [round_error]) i2 (o2 ++ [round_error]) Hne
                (start_game_grows fuel)) as [Hpre1 Hpre2].
    rewrite <- app_assoc in Hpre1, Hpre2.
    split;
      unfold game_loop, bind at 1, get_self; simpl; rewrite Hov; simpl;
      unfold bind at 1; rewrite Hround; assumption.
Qed.

Lemma failed_collection_round_witness :
  game_round (fresh_session 1 2 [move_frame "lizard"] [move_frame "rock"]) =
    broadcast round_error
      (collect_moves (fresh_session 1 2 [move_frame "lizard"] [move_frame "rock"])).2 ∧
  sent (game_round (fresh_session 1 2 [move_frame "lizard"] [move_frame "rock"])).2 1 =
    [your_move; MError "Invalid move"] ++ [round_error] ∧
  ([your_move] ++ [round_error; MRematch]) `prefix_of`
    sent (game_loop (start_game 1)
            (fresh_session 1 2 [move_frame "lizard"] [move_frame "rock"])).2 2.
Proof.
  destruct (failed_collection_round
              (fresh_session 1 2 [move_frame "lizard"] [move_frame "rock"])
              (collect_moves (fresh_session 1 2 [move_frame "lizard"] [move_frame "rock"])).2
              false true) as [(Hround & _) Hopen].
  - by vm_compute.
  - reflexivity.
  - destruct (Hopen (Conn true [] [your_move; MError "Invalid move"])
                    (Conn true [] [your_move])) as (_ & Hs1 & _ & Hnext);
      try by vm_compute.
    destruct (Hnext eq_refl 1) as [_ Hpre].
    repeat split; assumption.
Defined.

(** C1 as stated fails: after an illegal move and the error notice
    the session is not over.  Both websockets get the "rematch" prompt;
    here both peers answer "yes", and a second round is played and
    resolved. *)
Lemma failed_round_goes_on :
  (collect_moves lizard_session).1 = Ret (false, true) ∧
  (start_game 2 lizard_session).1 = Ret tt ∧
  sent (start_game 2 lizard_session).2 2 =
    [start2; your_move; round_error; MRematch;
     start2; your_move; MResult (Some "rock") (Some "scissors") "player1"; MRematch;
     MEnd "Game over."].
Proof. by vm_compute. Qed.

(** ** Rematches *)

Lemma member_single (key : string) (v : json) : member key [(key, v)] = v.
Proof. unfold member. simpl. by rewrite lookup_insert_eq. Qed.

Lemma move_frame_valid (m : string) :
  m ∈ valid_moves → as_valid_move (member "move" [("move", JStr m)]) = Some m.
Proof. intros Hm. rewrite member_single. simpl. by rewrite decide_True. Qed.

Lemma result_of_valid (m1 m2 : string) :
  m1 ∈ valid_moves → m2 ∈ valid_moves →
  get_result (Some m1) (Some m2) = Ret (result_of m1 m2).
Proof.
  intros H1 H2. unfold result_of.
  by destruct (get_result_valid m1 m2 H1 H2) as [r ->].
Qed.

(** A session of resolved rounds on two open websockets: every
    "yes"/"yes" starts the next round with a call of [start_game], and the
    first other pair of answers ends the session. *)
Lemma start_game_rounds (p1 p2 : handle) (others : gmap handle conn)
    (a1 a2 : list (string * json)) (rest1 rest2 : list frame) :
  p1 ≠ p2 →
  is_yes (member "rematch" a1) && is_yes (member "rematch" a2) = false →
  ∀ (more : list (string * string)) (first : string * string) (fuel : nat)
    (pl : gmap handle (option string)) (o1 o2 : list msg),
    Forall legal_round (first :: more) →
    length more < fuel →
    ∃ pl',
      start_game fuel
        (duo p1 p2 others (Game p1 p2 pl false)
           (Conn true (script first.1 (more.*1) (Encoded (JObj a1) :: rest1)) o1)
           (Conn true (script first.2 (more.*2) (Encoded (JObj a2) :: rest2)) o2)) =
      (Ret tt,
       duo p1 p2 others (Game p1 p2 pl' true)
         (Conn true rest1 (o1 ++ session_log start1 (first :: more) ++ [MEnd "Game over."]))
         (Conn true rest2 (o2 ++ session_log start2 (first :: more) ++ [MEnd "Game over."]))).
Proof.
  intros Hne Hno more.
  induction more as [| [n1 n2] more IH]; intros [m1 m2] fuel pl o1 o2 Hlegal Hfuel;
    (destruct fuel as [| fuel]; [simpl in Hfuel; lia |]);
    apply Forall_cons in Hlegal as [[Hm1 Hm2] Hlegal]; simpl in Hm1, Hm2;
    unfold script, move_frame, rematch_frame; simpl;
    unfold bind at 1, get_self; simpl;
    unfold bind at 1; rewrite send1 by done;
    unfold bind at 1; rewrite send2 by done;
    unfold game_loop, bind at 1, get_self; simpl;
    unfold bind at 1;
    rewrite (game_round_resolved p1 p2 Hne others pl false _ _ _ _ _ _ m1 m2
               (result_of m1 m2))
      by auto using move_frame_valid, result_of_valid.
  - rewrite ask_for_rematch_objects by done. rewrite Hno.
    eexists. f_equal. rewrite <- !app_assoc. reflexivity.
  - rewrite ask_for_rematch_objects by done. rewrite !member_single. simpl.
    destruct (IH (n1, n2) fuel (<[p2 := None]> (<[p1 := None]> ∅))
                (((o1 ++ [start1]) ++
                  [your_move; MResult (Some m1) (Some m2) (result_of m1 m2)]) ++ [MRematch])
                (((o2 ++ [start2]) ++
                  [your_move; MResult (Some m1) (Some m2) (result_of m1 m2)]) ++ [MRematch])
                Hlegal) as [pl' IH'].
    { simpl in Hfuel. lia. }
    unfold script, move_frame, rematch_frame in IH'. simpl in IH'.
    exists pl'. etrans; [exact IH' |].
    f_equal. rewrite <- !app_assoc. reflexivity.
Qed.

Lemma occurrences_app (m : msg) (l1 l2 : list msg) :
  occurrences m (l1 ++ l2) = occurrences m l1 + occurrences m l2.
Proof. unfold occurrences. by rewrite filter_app, length_app. Qed.

Lemma occurrences_cons (m x : msg) (l : list msg) :
  occurrences m (x :: l) = (if decide (x = m) then 1 else 0) + occurrences m l.
Proof.
  unfold occurrences. rewrite filter_cons. by case_decide.
Qed.

Lemma occurrences_session_log (start m : msg) (rounds : list (string * string)) :
  m = start ∨ m = your_move →
  start ≠ your_move → (∀ a b c, start ≠ MResult a b c) → start ≠ MRematch →
  occurrences m (session_log start rounds) = length rounds.
Proof.
  intros Hm H1 H2 H3. induction rounds as [| r rounds IH]; [done |].
  unfold session_log. simpl. fold (session_log start rounds).
  rewrite !occurrences_cons, IH.
  destruct Hm as [-> | ->].
  - rewrite decide_True by done. rewrite decide_False by done.
    rewrite decide_False by (intros Heq; by eapply H2).
    by rewrite decide_False.
  - rewrite decide_False by done. rewrite decide_True by done.
    rewrite decide_False by done. by rewrite decide_False.
Qed.

(** Resolved rounds, message by message.  When both peers send legal
    moves and answer "yes" to the rematch prompt N times in a row, and
    then send JSON objects that are not both "yes", the session returns
    after N+1 rounds, and what each websocket has been sent is the log
    of these rounds, each with its "start" notice and its "your_move"
    prompt, and the "end" notice. *)
Theorem rematch_restarts_with_start (p1 p2 : handle)
    (first : string * string) (more : list (string * string))
    (a1 a2 : list (string * json)) (rest1 rest2 : list frame) (fuel : nat) :
  p1 ≠ p2 →
  Forall legal_round (first :: more) →
  is_yes (member "rematch" a1) && is_yes (member "rematch" a2) = false →
  length more < fuel →
  let fin :=
    start_game fuel
      (fresh_session p1 p2
         (script first.1 (more.*1) (Encoded (JObj a1) :: rest1))
         (script first.2 (more.*2) (Encoded (JObj a2) :: rest2))) in
  fin.1 = Ret tt ∧
  sent fin.2 p1 = session_log start1 (first :: more) ++ [MEnd "Game over."] ∧
  sent fin.2 p2 = session_log start2 (first :: more) ++ [MEnd "Game over."] ∧
  occurrences your_move (sent fin.2 p1) = S (length more) ∧
  occurrences your_move (sent fin.2 p2) = S (length more) ∧
  occurrences start1 (sent fin.2 p1) = S (length more) ∧
  occurrences start2 (sent fin.2 p2) = S (length more).
Proof.
  intros Hne Hlegal Hno Hfuel fin.
  destruct (start_game_rounds p1 p2 ∅ a1 a2 rest1 rest2 Hne Hno more first fuel
              (<[p2 := None]> (<[p1 := None]> ∅)) [] [] Hlegal Hfuel) as [pl' Hrun].
  assert (Hfin : fin =
    (Ret tt,
     duo p1 p2 ∅ (Game p1 p2 pl' true)
       (Conn true rest1 ([] ++ session_log start1 (first :: more) ++ [MEnd "Game over."]))
       (Conn true rest2 ([] ++ session_log start2 (first :: more) ++ [MEnd "Game over."]))))
    by exact Hrun.
  rewrite Hfin. cbn [fst snd].
  rewrite sent_duo1 by done. rewrite sent_duo2. cbn [outbox]. rewrite !app_nil_l.
  rewrite !occurrences_app, !occurrences_cons.
  rewrite !occurrences_session_log by (try done; auto).
  simpl. repeat split; try done; lia.
Qed.

Lemma rematch_restarts_with_start_witness :
  sent (start_game 2
          (fresh_session 1 2
             (script "rock" ["paper"] [rematch_frame "no"])
             (script "paper" ["paper"] [rematch_frame "yes"]))).2 1 =
    session_log start1 [("rock", "paper"); ("paper", "paper")] ++ [MEnd "Game over."] ∧
  occurrences start1
    (sent (start_game 2
             (fresh_session 1 2
                (script "rock" ["paper"] [rematch_frame "no"])
                (script "paper" ["paper"] [rematch_frame "yes"]))).2 1) = 2.
Proof.
  destruct (rematch_restarts_with_start 1 2 ("rock", "paper") [("paper", "paper")]
              [("rematch", JStr "no")] [("rematch", JStr "yes")] [] [] 2)
    as (_ & Hs1 & _ & _ & _ & Hn1 & _).
  - done.
  - repeat constructor; unfold valid_moves; simpl; set_solver.
  - by vm_compute.
  - simpl. lia.
  - split; [exact Hs1 | exact Hn1].
Defined.

(** C2 as stated fails: with one "yes"/"yes" the session plays two
    rounds, and each websocket is sent its "start" notice twice, the
    second time at the head of the second round. *)
Lemma start_is_sent_again :
  (start_game 2 rematch_session).1 = Ret tt ∧
  sent (start_game 2 rematch_session).2 1 =
    [start1; your_move; MResult (Some "rock") (Some "paper") "player2"; MRematch;
     start1; your_move; MResult (Some "paper") (Some "paper") "draw"; MRematch;
     MEnd "Game over."] ∧
  occurrences start1 (sent (start_game 2 rematch_session).2 1) = 2 ∧
  occurrences start2 (sent (start_game 2 rematch_session).2 2) = 2.
Proof. by vm_compute. Qed.

(** C6 at its failing input. A closed connection is treated as "no",
    but the "end" notice that follows does not reach the peer that is
    still there when it is player 1 who has gone: the broadcast sends to
    player 1 first, that raises [ConnectionClosed], and player 2 is sent
    nothing after the prompt.  When it is player 2 who has gone, player 1
    does get its "end" notice. *)
Theorem end_notice_lost_for_player2 :
  (receive_response 1 player1_gone).1 = Ret false ∧
  (ask_for_rematch (start_game 0) player1_gone).1 = Raise ConnectionClosed ∧
  sent (ask_for_rematch (start_game 0) player1_gone).2 2 = [MRematch] ∧
  occurrences (MEnd "Game over.")
    (sent (ask_for_rematch (start_game 0) player1_gone).2 2) = 0 ∧
  (ask_for_rematch (start_game 0) player2_gone).1 = Raise ConnectionClosed ∧
  sent (ask_for_rematch (start_game 0) player2_gone).2 1 =
    [MRematch; MEnd "Game over."].
Proof. by vm_compute. Qed.

(** ** The queue of waiting players *)





Lemma handler_pairs_head (websocket opponent_ws : handle) (rest : list handle)
    (w : world) :
  waiting_players w = opponent_ws :: rest →
  (handler websocket w).2 =
    {| waiting_players := remove_if_present websocket rest;
       sockets :=
         net (start_game
                (session_fuel {| self := new_game opponent_ws websocket; net := sockets w |})
                {| self := new_game opponent_ws websocket; net := sockets w |}).2 |}.
Proof.
  intros Hq. unfold handler. rewrite Hq. cbn [pop0].
  destruct (start_game (session_fuel _) _) as [[[] | [] |] st']; reflexivity.
Qed.

(** ** A session ends *)

Implicit Types (ws : handle) (m : msg).

Lemma total_ret {A} (a : A) : total (ret a).
Proof. by intros st. Qed.

Lemma total_bind {A B} (c : M A) (k : A → M B) :
  total c → (∀ a, total (k a)) → total (bind c k).
Proof.
  intros Hc Hk st. unfold bind. specialize (Hc st).
  destruct (c st) as [[a | e |] st1]; simpl in *; try done. apply Hk.
Qed.

Lemma total_with_self {A} (k : game → M A) :
  (∀ g, total (k g)) → total (bind get_self k).
Proof. intros Hk st. apply Hk. Qed.

Lemma total_try_except {A} (body : M A) (cls : exn) (h : M A) :
  total body → total h → total (try_except body cls h).
Proof.
  intros Hb Hh st. unfold try_except. specialize (Hb st).
  destruct (body st) as [[a | e |] st1]; simpl in *; try done.
  destruct (decide (e = cls)); simpl; [apply Hh | done].
Qed.

Lemma total_gather {A B} (a : M A) (b : M B) :
  total a → total b → total (gather a b).
Proof.
  intros Ha Hb st. unfold gather. specialize (Ha st).
  destruct (a st) as [ra st1]. specialize (Hb st1).
  destruct (b st1) as [rb st2]. simpl in *. by destruct ra, rb.
Qed.

Lemma total_recv ws : total (recv ws).
Proof.
  intros st. unfold recv, on_net, sock_recv.
  destruct (net st !! ws) as [[[] [| f i] o] |]; by simpl.
Qed.

Lemma total_send ws m : total (send ws m).
Proof.
  intros st. unfold send, on_net, sock_send.
  destruct (net st !! ws) as [[[] i o] |]; by simpl.
Qed.

Lemma total_json_loads data : total (json_loads data).
Proof. by destruct data. Qed.

Lemma total_dict_get message key : total (dict_get message key).
Proof. by destruct message. Qed.

Lemma total_receive_move ws : total (receive_move ws).
Proof.
  apply total_try_except; [| apply total_ret].
  apply total_bind; [apply total_recv |]. intros data.
  apply total_bind; [apply total_json_loads |]. intros message.
  apply total_bind; [apply total_dict_get |]. intros move.
  destruct (as_valid_move move).
  - apply total_with_self. intros g. by apply total_bind.
  - apply total_bind; [apply total_send | intros; apply total_ret].
Qed.

Lemma total_receive_response ws : total (receive_response ws).
Proof.
  apply total_try_except; [| apply total_ret].
  apply total_bind; [apply total_recv |]. intros data.
  apply total_bind; [apply total_json_loads |]. intros message.
  apply total_bind; [apply total_dict_get |]. intros answer.
  apply total_ret.
Qed.

Lemma total_broadcast m : total (broadcast m).
Proof.
  apply total_with_self. intros g.
  apply total_bind; [apply total_send | intros; apply total_send].
Qed.

Lemma total_players_at ws : total (players_at ws).
Proof. intros st. unfold players_at, bind, get_self. simpl. by case_match. Qed.

Lemma total_determine_winner : total determine_winner.
Proof.
  apply total_with_self. intros g.
  apply total_bind; [apply total_players_at |]. intros move1.
  apply total_bind; [apply total_players_at |]. intros move2.
  apply total_bind.
  - intros st. unfold lift, get_result. simpl. repeat case_match; done.
  - intros result. apply total_bind; [apply total_broadcast | by intros].
Qed.

Lemma total_game_round : total game_round.
Proof.
  apply total_bind.
  - apply total_with_self. intros g.
    apply total_bind; [apply total_send |]. intros _.
    apply total_bind; [apply total_send |]. intros _.
    apply total_gather; apply total_receive_move.
  - intros rs. destruct (negb _); [apply total_broadcast | apply total_determine_winner].
Qed.

Lemma total_reset_game : total reset_game.
Proof. apply total_with_self. intros g. by apply total_bind. Qed.

Lemma shrinks_refl (st : state) : shrinks st st.
Proof. by split. Qed.

Lemma shrinks_trans (a b c : state) : shrinks a b → shrinks b c → shrinks a c.
Proof. intros [H1 H2] [H3 H4]. split; [congruence | lia]. Qed.

Lemma pending_insert (st : state) (ws : handle) (c : conn) :
  pending {| self := self st; net := <[ws := c]> (net st) |} =
    if decide (ws = player1_ws (self st)) then length (inbox c) else pending st.
Proof.
  unfold pending. simpl. case_decide as Heq.
  - subst. by rewrite lookup_insert_eq.
  - by rewrite lookup_insert_ne.
Qed.

Lemma shrinks_recv (ws : handle) : respects shrinks (recv ws).
Proof.
  intros st. unfold recv, on_net, sock_recv.
  destruct (net st !! ws) as [c |] eqn:Hc; simpl; [| by split].
  destruct (alive c); simpl; [| by split].
  destruct (inbox c) as [| f rest] eqn:Hin; simpl; (split; [done |]);
    rewrite pending_insert; case_decide; subst; simpl; try lia;
    unfold pending; rewrite Hc, Hin; simpl; lia.
Qed.

Lemma shrinks_send (ws : handle) (m : msg) : respects shrinks (send ws m).
Proof.
  intros st. unfold send, on_net, sock_send.
  destruct (net st !! ws) as [c |] eqn:Hc; simpl; [| by split].
  destruct (alive c); simpl; [| by split].
  split; [done |]. rewrite pending_insert. case_decide; subst; simpl; [| lia].
  unfold pending. rewrite Hc. lia.
Qed.

Lemma shrinks_store (ws : handle) (m : string) (st : state) :
  m ∈ valid_moves →
  shrinks st (set_players (<[ws := Some m]> (players (self st))) st).2.
Proof. intros _. by split. Qed.

Lemma shrinks_reset (st : state) :
  shrinks st (set_players (<[player2_ws (self st) := None]>
                             (<[player1_ws (self st) := None]> ∅)) st).2.
Proof. by split. Qed.

Lemma shrinks_over (b : bool) : respects shrinks (set_game_over b).
Proof. intros st. by split. Qed.

(** A "yes" of player 1 uses up one of its frames. *)
Lemma receive_response_true_pending (st st' : state) :
  receive_response (player1_ws (self st)) st = (Ret true, st') →
  player1_ws (self st') = player1_ws (self st) ∧ pending st' < pending st.
Proof.
  unfold receive_response. run_coro. unfold pending.
  destruct (net st !! player1_ws (self st)) as [c |] eqn:Hc; simpl; [| done].
  destruct (alive c); simpl; [| done].
  destruct (inbox c) as [| [raw | v] rest] eqn:Hin; simpl; try done.
  destruct v; simpl; try done.
  intros [= _ <-]. simpl. rewrite lookup_insert_eq. simpl. split; [done | lia].
Qed.

(** The vote of [ask_for_rematch] calls [start_game] again only in a
    state in which player 1 has fewer frames left. *)
Lemma ask_for_rematch_ends (k : M unit) (st : state) :
  (∀ st', player1_ws (self st') = player1_ws (self st) →
          pending st' < pending st → (k st').1 ≠ Diverge) →
  (ask_for_rematch k st).1 ≠ Diverge.
Proof.
  intros Hk. unfold ask_for_rematch, bind at 1, get_self. simpl.
  unfold bind at 1.
  pose proof (total_broadcast MRematch st) as Htot.
  pose proof (respects_broadcast shrinks shrinks_trans shrinks_send MRematch st)
    as [Hp1 Hle1].
  destruct (broadcast MRematch st) as [[[] | e |] st1]; simpl in *; try done.
  unfold bind at 1.
  pose proof (total_gather _ _
                (total_receive_response (player1_ws (self st)))
                (total_receive_response (player2_ws (self st))) st1) as Htot2.
  destruct (gather _ _ st1) as [[[b1 b2] | e |] st3] eqn:Hg; simpl in *; try done.
  apply gather_both_true in Hg as (st2 & Ha & Hb).
  destruct b1; simpl; [| apply total_broadcast].
  destruct b2; simpl; [| apply total_broadcast].
  rewrite <- Hp1 in Ha. apply receive_response_true_pending in Ha as [Hp2 Hlt].
  pose proof (respects_receive_response shrinks shrinks_refl shrinks_trans
                shrinks_recv (player2_ws (self st)) st2) as [Hp3 Hle3].
  rewrite Hb in Hp3, Hle3. simpl in Hp3, Hle3.
  unfold bind.
  pose proof (total_reset_game st3) as Htot3.
  pose proof (respects_reset_game shrinks shrinks_trans shrinks_reset shrinks_over st3)
    as [Hp4 Hle4].
  destruct (reset_game st3) as [[[] | e |] st4]; simpl in *; try done.
  apply Hk; [congruence | lia].
Qed.

(** With more fuel than player 1 has frames left, [start_game] ends:
    it returns or raises. *)
Lemma start_game_ends (fuel : nat) (st : state) :
  pending st < fuel → (start_game fuel st).1 ≠ Diverge.
Proof.
  revert st. induction fuel as [| fuel IH]; intros st Hfuel; [lia |].
  simpl. unfold bind at 1, get_self. simpl. unfold bind at 1.
  pose proof (total_send (player1_ws (self st)) start1 st) as Ht1.
  pose proof (shrinks_send (player1_ws (self st)) start1 st) as [Hp1 Hl1].
  destruct (send (player1_ws (self st)) start1 st) as [[[] | e |] st1];
    simpl in *; try done.
  unfold bind at 1.
  pose proof (total_send (player2_ws (self st)) start2 st1) as Ht2.
  pose proof (shrinks_send (player2_ws (self st)) start2 st1) as [Hp2 Hl2].
  destruct (send (player2_ws (self st)) start2 st1) as [[[] | e |] st2];
    simpl in *; try done.
  unfold game_loop, bind at 1, get_self. simpl. unfold bind at 1.
  assert (Hround : ∃ r st3,
    (if negb (game_over (self st2)) then game_round else ret tt) st2 = (r, st3) ∧
    r ≠ Diverge ∧ shrinks st2 st3).
  { destruct (negb (game_over (self st2))).
    - exists (game_round st2).1, (game_round st2).2. split; [by destruct (game_round st2) |].
      split; [apply total_game_round |].
      apply (respects_game_round shrinks shrinks_refl shrinks_trans shrinks_recv
               shrinks_send shrinks_store shrinks_over).
    - exists (Ret tt), st2. repeat split; try done. }
  destruct Hround as (r & st3 & -> & Hr & [Hp3 Hl3]).
  destruct r as [[] | e |]; simpl; try done.
  apply ask_for_rematch_ends. intros st' Hp' Hlt.
  apply IH. lia.
Qed.

(** The fuel [handler] gives a session is enough. *)
Lemma handler_ends (websocket : handle) (w : world) :
  (handler websocket w).1 ≠ Diverged.
Proof.
  unfold handler. destruct (pop0 (waiting_players w)) as [[opponent_ws rest] |].
  - pose proof (start_game_ends
                  (session_fuel {| self := new_game opponent_ws websocket; net := sockets w |})
                  {| self := new_game opponent_ws websocket; net := sockets w |}) as Hends.
    destruct (start_game _ _) as [[[] | [] |] st']; simpl in *; try done.
    exfalso. apply Hends; [unfold session_fuel; lia | done].
  - unfold sock_send.
    destruct (sockets w !! websocket) as [[[] i o] |]; by simpl.
Qed.

(** ** The resolver outside the legal moves *)

Lemma wins_lookup (s : string) :
  wins !! s =
    if decide (s = "paper") then Some "rock"
    else if decide (s = "scissors") then Some "paper"
    else if decide (s = "rock") then Some "scissors"
    else None.
Proof.
  unfold wins. rewrite !lookup_insert, lookup_empty.
  repeat case_decide; congruence.
Qed.

Lemma wins_lookup_None (s : string) : wins !! s = None ↔ s ∉ valid_moves.
Proof.
  rewrite wins_lookup. split.
  - intros Hnone Hin. legal_cases Hin; by vm_compute in Hnone.
  - intros Hnot. repeat case_decide; subst; try done;
      exfalso; apply Hnot; unfold valid_moves; rewrite !elem_of_cons; tauto.
Qed.

(** [get_result] raises [KeyError], and nothing else, exactly when the
    two moves differ and the first one is not a key of [wins]: [None]
    or a string other than the three legal ones. *)
Theorem get_result_KeyError (move1 move2 : option string) :
  (get_result move1 move2 = Raise KeyError ↔
   move1 ≠ move2 ∧ ∀ s, move1 = Some s → s ∉ valid_moves) ∧
  (∀ e, get_result move1 move2 = Raise e → e = KeyError) ∧
  get_result move1 move2 ≠ Diverge.
Proof.
  unfold get_result. case_decide as Heq.
  - split; [| done]. split; [done |]. by intros [Hne _].
  - destruct move1 as [s |]; [destruct (wins !! s) as [w |] eqn:Hw |].
    + split; [| done]. split; [done |]. intros [_ Hs].
      specialize (Hs s eq_refl). apply wins_lookup_None in Hs. congruence.
    + split; [| split; [| done]].
      * split; [| done]. intros _. split; [done |].
        intros s' Hs'. injection Hs' as <-. by apply wins_lookup_None.
      * intros e He. by injection He as <-.
    + split; [| split; [| done]].
      * split; [| done]. intros _. split; [done |]. by intros s' Hs'.
      * intros e He. by injection He as <-.
Qed.

(** [get_result] answers "draw" exactly when the two moves are equal,
    whatever they are. *)
Theorem get_result_draw (move1 move2 : option string) :
  get_result move1 move2 = Ret "draw" ↔ move1 = move2.
Proof.
  unfold get_result. case_decide as Heq; [done |].
  split; [| done].
  destruct move1 as [s |]; [| done].
  destruct (wins !! s); [| done]. by case_decide.
Qed.

(** Against the three legal moves every legal move draws once, wins
    once and loses once. *)
Theorem get_result_balanced (x : string) :
  x ∈ valid_moves →
  map (λ y, get_result (Some x) (Some y)) valid_moves ≡ₚ
    [Ret "draw"; Ret "player1"; Ret "player2"].
Proof.
  intros Hx. legal_cases Hx; vm_compute.
  - apply perm_skip, Permutation_swap.
  - apply Permutation_swap.
  - etrans; [apply Permutation_swap |]. symmetry.
    apply (Permutation_cons_append [Ret "player1"; Ret "player2"] (Ret "draw")).
Qed.

Lemma get_result_balanced_witness :
  map (λ y, get_result (Some "paper") (Some y)) valid_moves ≡ₚ
    [Ret "draw"; Ret "player1"; Ret "player2"].
Proof.
  apply (get_result_balanced "paper"). unfold valid_moves.
  rewrite !elem_of_cons. tauto.
Defined.

(** ** What one receiving operation does *)

(** [receive_move] returns [True] exactly when the connection is open
    and its next frame is a JSON object with a legal move; it then takes
    that one frame, sends nothing, and stores the move under its
    websocket. *)
Theorem receive_move_True (ws : handle) (st st' : state) :
  receive_move ws st = (Ret true, st') ↔
  ∃ c ms rest mv,
    net st !! ws = Some c ∧ alive c = true ∧
    inbox c = Encoded (JObj ms) :: rest ∧
    as_valid_move (member "move" ms) = Some mv ∧
    st' = {| self := {| player1_ws := player1_ws (self st);
                        player2_ws := player2_ws (self st);
                        players := <[ws := Some mv]> (players (self st));
                        game_over := game_over (self st) |};
             net := <[ws := {| alive := true; inbox := rest; outbox := outbox c |}]>
                      (net st) |}.
Proof.
  split.
  - unfold receive_move. run_coro.
    destruct (net st !! ws) as [c |]; simpl; [| done].
    destruct (alive c) eqn:Ha; simpl; [| done].
    destruct (inbox c) as [| [raw | v] rest] eqn:Hin; simpl; try done.
    destruct v; simpl; try done.
    destruct (as_valid_move _) as [mv |] eqn:Hm; run_coro.
    + intros [= <-]. by exists c, members, rest, mv.
    + rewrite lookup_insert_eq. simpl. done.
  - intros (c & ms & rest & mv & Hc & Ha & Hin & Hm & ->).
    unfold receive_move. run_coro. rewrite Hc. simpl. rewrite Ha, Hin. simpl.
    rewrite Hm. by run_coro.
Qed.

(** [receive_response] only reads: it sends nothing and leaves the game
    object alone, whatever arrives.  It returns [True] exactly when the
    connection is open and its next frame is a JSON object whose
    "rematch" is "yes". *)
Theorem receive_response_reads (ws : handle) (st : state) :
  self (receive_response ws st).2 = self st ∧
  (∀ ws', sent (receive_response ws st).2 ws' = sent st ws') ∧
  ((receive_response ws st).1 = Ret true ↔
   ∃ c ms rest,
     net st !! ws = Some c ∧ alive c = true ∧
     inbox c = Encoded (JObj ms) :: rest ∧ member "rematch" ms = JStr "yes").
Proof.
  split; [| split].
  - unfold receive_response. run_coro.
    destruct (net st !! ws) as [[[] [| [raw | []] rest] o] |]; by simpl.
  - intros ws'. unfold receive_response. run_coro.
    destruct (net st !! ws) as [c |] eqn:Hc; simpl; [| done].
    destruct (alive c) eqn:Ha; simpl; [| done].
    assert (Hsent : ∀ a i,
      sent {| self := self st;
              net := <[ws := {| alive := a; inbox := i; outbox := outbox c |}]> (net st) |}
           ws' = sent st ws').
    { intros a i. rewrite sent_insert. case_decide; [| done].
      subst. unfold sent. by rewrite Hc. }
    destruct (inbox c) as [| [raw | []] rest]; simpl; apply Hsent.
  - unfold receive_response. run_coro. split.
    + destruct (net st !! ws) as [c |] eqn:Hc; simpl; [| done].
      destruct (alive c) eqn:Ha; simpl; [| done].
      destruct (inbox c) as [| [raw | v] rest] eqn:Hin; simpl; try done.
      destruct v; simpl; try done.
      intros [= Hyes]. apply is_yes_true in Hyes. by exists c, members, rest.
    + intros (c & ms & rest & -> & Ha & Hin & Hyes). simpl.
      rewrite Ha, Hin. simpl. rewrite Hyes. done.
Qed.

(** [broadcast] sends to player 1 first and stops at the first closed
    connection.  When player 1's connection is closed nobody is sent
    anything; when only player 2's is closed, player 1 has been sent the
    message; either way the call raises [ConnectionClosed]. *)
Theorem broadcast_stops_at_closed (message : msg) (st : state) :
  (closed st (player1_ws (self st)) →
   (broadcast message st).1 = Raise ConnectionClosed ∧
   ∀ ws, sent (broadcast message st).2 ws = sent st ws) ∧
  (∀ c1,
     player1_ws (self st) ≠ player2_ws (self st) →
     net st !! player1_ws (self st) = Some c1 → alive c1 = true →
     closed st (player2_ws (self st)) →
     (broadcast message st).1 = Raise ConnectionClosed ∧
     sent (broadcast message st).2 (player1_ws (self st)) = outbox c1 ++ [message] ∧
     sent (broadcast message st).2 (player2_ws (self st)) =
       sent st (player2_ws (self st))).
Proof.
  split.
  - intros Hclosed. unfold broadcast, closed in *. run_coro.
    destruct (net st !! player1_ws (self st)) as [c |]; simpl; [| done].
    rewrite (Hclosed c eq_refl). done.
  - intros c1 Hne H1 Ha1 Hclosed. unfold broadcast, closed in *. run_coro.
    rewrite H1. simpl. rewrite Ha1. simpl.
    rewrite lookup_insert_ne by done.
    destruct (net st !! player2_ws (self st)) as [c2 |] eqn:H2; simpl.
    + rewrite (Hclosed c2 eq_refl). simpl. split; [done |].
      unfold sent. simpl. rewrite lookup_insert_eq.
      rewrite lookup_insert_ne by done. by rewrite H2.
    + split; [done |]. unfold sent. simpl. rewrite lookup_insert_eq.
      rewrite lookup_insert_ne by done. by rewrite H2.
Qed.

Lemma broadcast_stops_at_closed_witness :
  (broadcast round_error
     (collect_moves (fresh_session 1 2 [] [move_frame "rock"])).2).1 =
    Raise ConnectionClosed ∧
  sent (broadcast round_error
          (collect_moves (fresh_session 1 2 [] [move_frame "rock"])).2).2 2 =
    sent (collect_moves (fresh_session 1 2 [] [move_frame "rock"])).2 2 ∧
  sent (broadcast round_error
          (collect_moves (fresh_session 1 2 [move_frame "rock"] [])).2).2 1 =
    [your_move] ++ [round_error].
Proof.
  assert (Hc1 : closed (collect_moves (fresh_session 1 2 [] [move_frame "rock"])).2
                  (player1_ws (self (collect_moves
                     (fresh_session 1 2 [] [move_frame "rock"])).2))).
  { intros c. vm_compute. by intros [= <-]. }
  assert (Hc2 : closed (collect_moves (fresh_session 1 2 [move_frame "rock"] [])).2
                  (player2_ws (self (collect_moves
                     (fresh_session 1 2 [move_frame "rock"] [])).2))).
  { intros c. vm_compute. by intros [= <-]. }
  destruct (broadcast_stops_at_closed round_error
              (collect_moves (fresh_session 1 2 [] [move_frame "rock"])).2)
    as [H1 _].
  destruct (broadcast_stops_at_closed round_error
              (collect_moves (fresh_session 1 2 [move_frame "rock"] [])).2)
    as [_ H2].
  destruct (H1 Hc1) as [Hr Hs].
  assert (Hne : player1_ws (self (collect_moves
                   (fresh_session 1 2 [move_frame "rock"] [])).2) ≠
                player2_ws (self (collect_moves
                   (fresh_session 1 2 [move_frame "rock"] [])).2))
    by (by vm_compute).
  destruct (H2 (Conn true [] [your_move]) Hne) as (_ & Hs1 & _);
    [by vm_compute | reflexivity | exact Hc2 |].
  split; [exact Hr |]. split; [apply Hs | exact Hs1].
Defined.

(** ** What a session can raise, and how deep it goes *)

Lemma raises_only_ret {A} (a : A) : raises_only (ret a).
Proof. by intros st. Qed.

Lemma raises_only_bind {A B} (c : M A) (k : A → M B) :
  raises_only c → (∀ a, raises_only (k a)) → raises_only (bind c k).
Proof.
  intros Hc Hk st. unfold bind. specialize (Hc st).
  destruct (c st) as [[a | e |] st1]; simpl in *; try done. apply Hk.
Qed.

Lemma raises_only_with_self {A} (k : game → M A) :
  (∀ g, raises_only (k g)) → raises_only (bind get_self k).
Proof. intros Hk st. apply Hk. Qed.

Lemma raises_only_try_except {A} (body : M A) (cls : exn) (h : M A) :
  raises_only body → raises_only h → raises_only (try_except body cls h).
Proof.
  intros Hb Hh st. unfold try_except. specialize (Hb st).
  destruct (body st) as [[a | e |] st1]; simpl in *; try done.
  destruct (decide (e = cls)); simpl; [apply Hh | done].
Qed.

Lemma raises_only_gather {A B} (a : M A) (b : M B) :
  raises_only a → raises_only b → raises_only (gather a b).
Proof.
  intros Ha Hb st. unfold gather. specialize (Ha st).
  destruct (a st) as [ra st1]. specialize (Hb st1).
  destruct (b st1) as [rb st2]. simpl in *. by destruct ra, rb.
Qed.

Lemma raises_only_recv ws : raises_only (recv ws).
Proof.
  intros st. unfold recv, on_net, sock_recv.
  destruct (net st !! ws) as [[[] [| f i] o] |]; simpl; try done; by left.
Qed.

Lemma raises_only_send ws m : raises_only (send ws m).
Proof.
  intros st. unfold send, on_net, sock_send.
  destruct (net st !! ws) as [[[] i o] |]; simpl; try done; by left.
Qed.

Lemma raises_only_json_loads data : raises_only (json_loads data).
Proof. destruct data; intros st; simpl; [right; by left | done]. Qed.

Lemma raises_only_dict_get message key : raises_only (dict_get message key).
Proof. destruct message; intros st; simpl; try done; right; by right. Qed.

Lemma raises_only_receive_move ws : raises_only (receive_move ws).
Proof.
  apply raises_only_try_except; [| apply raises_only_ret].
  apply raises_only_bind; [apply raises_only_recv |]. intros data.
  apply raises_only_bind; [apply raises_only_json_loads |]. intros message.
  apply raises_only_bind; [apply raises_only_dict_get |]. intros move.
  destruct (as_valid_move move).
  - apply raises_only_with_self. intros g. by apply raises_only_bind.
  - apply raises_only_bind; [apply raises_only_send | intros; apply raises_only_ret].
Qed.

Lemma raises_only_receive_response ws : raises_only (receive_response ws).
Proof.
  apply raises_only_try_except; [| apply raises_only_ret].
  apply raises_only_bind; [apply raises_only_recv |]. intros data.
  apply raises_only_bind; [apply raises_only_json_loads |]. intros message.
  apply raises_only_bind; [apply raises_only_dict_get |]. intros answer.
  apply raises_only_ret.
Qed.

Lemma raises_only_broadcast m : raises_only (broadcast m).
Proof.
  apply raises_only_with_self. intros g.
  apply raises_only_bind; [apply raises_only_send | intros; apply raises_only_send].
Qed.

Lemma raises_only_collect_moves : raises_only collect_moves.
Proof.
  apply raises_only_with_self. intros g.
  apply raises_only_bind; [apply raises_only_send |]. intros _.
  apply raises_only_bind; [apply raises_only_send |]. intros _.
  apply raises_only_gather; apply raises_only_receive_move.
Qed.

(** With two different websockets a round never raises [KeyError]: the
    move record and the resolver are only read after both collections
    have stored a legal move. *)
Lemma game_round_ends_well (st : state) :
  player1_ws (self st) ≠ player2_ws (self st) →
  ends_well (game_round st).1.
Proof.
  intros Hne. pose proof (raises_only_collect_moves st) as Hcol.
  destruct (collect_moves st) as [[[b1 b2] | e |] st1] eqn:Hc; simpl in Hcol;
    [| unfold game_round, bind; by rewrite Hc | done].
  destruct (b1 && b2) eqn:Hb.
  - apply andb_true_iff in Hb as [-> ->].
    destruct (collect_moves_both_inv st st1 Hne Hc)
      as (ms1 & i1 & o1 & ms2 & i2 & o2 & Hst & Ha1 & Ha2).
    apply accepted_true in Ha1 as (m1 & Hm1 & Hv1).
    apply accepted_true in Ha2 as (m2 & Hm2 & Hv2).
    destruct (get_result_valid m1 m2 Hv1 Hv2) as [r Hr].
    destruct st as [[p1 p2 pl ov] n]. simpl in *. rewrite Hst.
    by rewrite (game_round_resolved p1 p2 Hne n pl ov ms1 i1 o1 ms2 i2 o2 m1 m2 r
                  Hm1 Hm2 Hr).
  - unfold game_round, bind. rewrite Hc. simpl. rewrite Hb. simpl.
    apply raises_only_broadcast.
Qed.

Lemma reset_game_run (st : state) :
  reset_game st =
    (Ret tt,
     {| self := {| player1_ws := player1_ws (self st);
                   player2_ws := player2_ws (self st);
                   players := <[player2_ws (self st) := None]>
                                (<[player1_ws (self st) := None]> ∅);
                   game_over := false |};
        net := net st |}).
Proof. reflexivity. Qed.

(** A call of [ask_for_rematch] either ends by itself, whatever its
    [start_game] is, or it is a call of that [start_game] in a state in
    which player 1 has fewer frames left to send. *)
Lemma ask_for_rematch_tail (st : state) :
  (∃ r s, ends_well r ∧ ∀ k, ask_for_rematch k st = (r, s)) ∨
  (∃ s, self s = new_game (player1_ws (self st)) (player2_ws (self st)) ∧
        same_players st s ∧ pending s < pending st ∧
        ∀ k, ask_for_rematch k st = k s).
Proof.
  pose proof (raises_only_broadcast MRematch st) as Hw1.
  pose proof (broadcast_self MRematch st) as Hs1.
  pose proof (respects_broadcast shrinks shrinks_trans shrinks_send MRematch st)
    as [_ Hle1].
  destruct (broadcast MRematch st) as [[[] | e |] st1] eqn:Hb; simpl in *;
    [| left; exists (Raise e), st1; split; [done |]; intros k;
       unfold ask_for_rematch, bind, get_self; by rewrite Hb
     | done].
  pose proof (raises_only_gather _ _
                (raises_only_receive_response (player1_ws (self st)))
                (raises_only_receive_response (player2_ws (self st))) st1) as Hw2.
  destruct (gather (receive_response (player1_ws (self st)))
                   (receive_response (player2_ws (self st))) st1)
    as [[[b1 b2] | e |] st3] eqn:Hg; simpl in Hw2;
    [| left; exists (Raise e), st3; split; [done |]; intros k;
       unfold ask_for_rematch, bind, get_self; rewrite Hb; by rewrite Hg
     | done].
  destruct (b1 && b2) eqn:Hboth.
  - right. apply andb_true_iff in Hboth as [-> ->].
    apply gather_both_true in Hg as Hg'. destruct Hg' as (st2 & Ha & Hb2).
    pose proof (receive_response_reads (player1_ws (self st)) st1) as (Hself2 & _).
    rewrite Ha in Hself2. simpl in Hself2.
    pose proof (receive_response_reads (player2_ws (self st)) st2) as (Hself3 & _).
    rewrite Hb2 in Hself3. simpl in Hself3.
    pose proof (respects_receive_response shrinks shrinks_refl shrinks_trans
                  shrinks_recv (player2_ws (self st)) st2) as [_ Hle3].
    rewrite Hb2 in Hle3. simpl in Hle3.
    rewrite <- Hs1 in Ha. apply receive_response_true_pending in Ha as [_ Hlt].
    exists (reset_game st3).2. rewrite reset_game_run. simpl.
    split; [| split; [| split]].
    + unfold new_game. by rewrite Hself3, Hself2, Hs1.
    + split; simpl; by rewrite Hself3, Hself2, Hs1.
    + assert (Hpend : pending
        {| self := {| player1_ws := player1_ws (self st3);
                      player2_ws := player2_ws (self st3);
                      players := <[player2_ws (self st3) := None]>
                                   (<[player1_ws (self st3) := None]> ∅);
                      game_over := false |};
           net := net st3 |} = pending st3) by done.
      rewrite Hpend. lia.
    + intros k. unfold ask_for_rematch, bind, get_self. rewrite Hb, Hg. done.
  - left. exists (broadcast (MEnd "Game over.") st3).1,
                 (broadcast (MEnd "Game over.") st3).2.
    split; [apply raises_only_broadcast |]. intros k.
    unfold ask_for_rematch, bind, get_self. rewrite Hb, Hg. simpl.
    rewrite Hboth. by destruct (broadcast _ st3).
Qed.

Lemma game_round_same_players (st : state) : same_players st (game_round st).2.
Proof.
  destruct (respects_game_round grows grows_refl grows_trans grows_recv grows_send
              grows_store grows_over st) as (H1 & H2 & _).
  by split.
Qed.

Lemma game_round_shrinks (st : state) : shrinks st (game_round st).2.
Proof.
  apply (respects_game_round shrinks shrinks_refl shrinks_trans shrinks_recv
           shrinks_send shrinks_store shrinks_over).
Qed.

(** The same for [game_loop]. *)
Lemma game_loop_tail (st : state) :
  (∃ r s, r ≠ Diverge ∧
          (player1_ws (self st) ≠ player2_ws (self st) → ends_well r) ∧
          ∀ k, game_loop k st = (r, s)) ∨
  (∃ s, same_players st s ∧ pending s < pending st ∧
        ∀ k, game_loop k st = k s).
Proof.
  assert (Hround : ∃ r0 st3,
    (if negb (game_over (self st)) then game_round else ret tt) st = (r0, st3) ∧
    r0 ≠ Diverge ∧
    (player1_ws (self st) ≠ player2_ws (self st) → ends_well r0) ∧
    same_players st st3 ∧ (pending st3 ≤ pending st)%nat).
  { destruct (negb (game_over (self st))).
    - exists (game_round st).1, (game_round st).2.
      split; [by destruct (game_round st) |].
      split; [apply total_game_round |].
      split; [apply game_round_ends_well |].
      split; [apply game_round_same_players | apply game_round_shrinks].
    - exists (Ret tt), st. repeat split; try done. }
  destruct Hround as (r0 & st3 & Hrun & Hnd & Hwell & [Hp1 Hp2] & Hle).
  destruct r0 as [[] | e |]; [| | done].
  - destruct (ask_for_rematch_tail st3)
      as [(r & s & Hr & Hk) | (s & _ & [Hq1 Hq2] & Hlt & Hk)].
    + left. exists r, s. split; [by destruct r |]. split; [done |].
      intros k. unfold game_loop, bind, get_self. rewrite Hrun. apply Hk.
    + right. exists s. split; [split; congruence |]. split; [lia |].
      intros k. unfold game_loop, bind, get_self. rewrite Hrun. apply Hk.
  - left. exists (Raise e), st3. split; [done |]. split; [done |].
    intros k. unfold game_loop, bind, get_self. by rewrite Hrun.
Qed.

(** And for [start_game] with fuel left. *)
Lemma start_game_tail (st : state) :
  (∃ r s, r ≠ Diverge ∧
          (player1_ws (self st) ≠ player2_ws (self st) → ends_well r) ∧
          ∀ fuel, start_game (S fuel) st = (r, s)) ∨
  (∃ s, same_players st s ∧ pending s < pending st ∧
        ∀ fuel, start_game (S fuel) st = start_game fuel s).
Proof.
  pose proof (raises_only_send (player1_ws (self st)) start1 st) as Hw1.
  pose proof (send_self (player1_ws (self st)) start1 st) as Hs1.
  pose proof (shrinks_send (player1_ws (self st)) start1 st) as [_ Hl1].
  destruct (send (player1_ws (self st)) start1 st) as [[[] | e |] st1] eqn:Hsend1;
    simpl in *;
    [| left; exists (Raise e), st1; repeat split; try done; intros fuel;
       simpl; unfold bind, get_self; by rewrite Hsend1
     | done].
  pose proof (raises_only_send (player2_ws (self st)) start2 st1) as Hw2.
  pose proof (send_self (player2_ws (self st)) start2 st1) as Hs2.
  pose proof (shrinks_send (player2_ws (self st)) start2 st1) as [_ Hl2].
  destruct (send (player2_ws (self st)) start2 st1) as [[[] | e |] st2] eqn:Hsend2;
    simpl in *;
    [| left; exists (Raise e), st2; repeat split; try done; intros fuel;
       simpl; unfold bind, get_self; rewrite Hsend1; by rewrite Hsend2
     | done].
  assert (Hself : self st2 = self st) by congruence.
  destruct (game_loop_tail st2)
    as [(r & s & Hnd & Hwell & Hk) | (s & [Hq1 Hq2] & Hlt & Hk)].
  - left. exists r, s. split; [done |]. split; [by rewrite Hself in Hwell |].
    intros fuel. simpl. unfold bind at 1, get_self. simpl.
    unfold bind at 1. rewrite Hsend1. unfold bind at 1. rewrite Hsend2. apply Hk.
  - right. exists s. split; [split; congruence |]. split; [lia |].
    intros fuel. simpl. unfold bind at 1, get_self. simpl.
    unfold bind at 1. rewrite Hsend1. unfold bind at 1. rewrite Hsend2. apply Hk.
Qed.

Lemma start_game_settled (fuel : nat) (st : state) :
  pending st < fuel →
  ∃ r s,
    r ≠ Diverge ∧
    (player1_ws (self st) ≠ player2_ws (self st) → ends_well r) ∧
    ∀ fuel', pending st < fuel' → start_game fuel' st = (r, s).
Proof.
  revert st. induction fuel as [| fuel IH]; intros st Hfuel; [lia |].
  destruct (start_game_tail st)
    as [(r & s & Hnd & Hwell & Hk) | (s & [Hq1 Hq2] & Hlt & Hk)].
  - exists r, s. split; [done |]. split; [done |].
    intros [| fuel'] Hfuel'; [lia | apply Hk].
  - destruct (IH s) as (r & s' & Hnd & Hwell & Hall); [lia |].
    exists r, s'. split; [done |]. split; [intros Hne; apply Hwell; congruence |].
    intros [| fuel'] Hfuel'; [lia |]. rewrite Hk. apply Hall. lia.
Qed.

(** Whatever depth a session is given, it uses it up, returns, or
    raises one of the exceptions of [expected]. *)
Lemma start_game_ends_well (fuel : nat) (st : state) :
  player1_ws (self st) ≠ player2_ws (self st) →
  (start_game fuel st).1 = Diverge ∨ ends_well (start_game fuel st).1.
Proof.
  revert st. induction fuel as [| fuel IH]; intros st Hne; [by left |].
  destruct (start_game_tail st)
    as [(r & s & Hnd & Hwell & Hk) | (s & [Hq1 Hq2] & Hlt & Hk)].
  - right. rewrite Hk. by apply Hwell.
  - rewrite Hk. apply IH. congruence.
Qed.

(** A session between two different websockets never raises
    [KeyError], whatever the peers send and however deep it goes:
    [self.players] is read and [wins] is looked up only in
    [determine_winner], which is reached only when both collections of
    the round have stored a legal move. *)
Theorem session_never_KeyError (fuel : nat) (st : state) :
  player1_ws (self st) ≠ player2_ws (self st) →
  (start_game fuel st).1 ≠ Raise KeyError.
Proof.
  intros Hne Hraise.
  destruct (start_game_ends_well fuel st Hne) as [Hd | Hwell].
  - by rewrite Hraise in Hd.
  - rewrite Hraise in Hwell. by destruct Hwell as [H | [H | H]].
Qed.

Lemma session_never_KeyError_witness :
  (start_game 5 lizard_session).1 ≠ Raise KeyError.
Proof. apply session_never_KeyError. by vm_compute. Defined.

(** ** A session keeps to its two websockets *)

Section Within.
Variables a b : handle.

Lemma within_refl (st : state) : within a b st st.
Proof. by repeat split. Qed.

Lemma within_trans (s1 s2 s3 : state) :
  within a b s1 s2 → within a b s2 s3 → within a b s1 s3.
Proof.
  intros [[H1 H2] H3] [[H4 H5] H6]. repeat split; try congruence.
  intros x Ha Hb. rewrite H6 by done. by apply H3.
Qed.

Lemma confined_ret {A} (x : A) : confined a b (ret x).
Proof. intros st _ _. apply within_refl. Qed.

Lemma confined_bind {A B} (c : M A) (k : A → M B) :
  confined a b c → (∀ x, confined a b (k x)) → confined a b (bind c k).
Proof.
  intros Hc Hk st Ha Hb. unfold bind. specialize (Hc st Ha Hb).
  destruct (c st) as [[x | e |] st1]; simpl in *; try done.
  eapply within_trans; [exact Hc |].
  destruct Hc as [[H1 H2] _]. apply Hk; congruence.
Qed.

Lemma confined_with_self {A} (k : game → M A) :
  (∀ g, player1_ws g = a → player2_ws g = b → confined a b (k g)) →
  confined a b (bind get_self k).
Proof. intros Hk st Ha Hb. by apply Hk. Qed.

Lemma confined_try_except {A} (body : M A) (cls : exn) (h : M A) :
  confined a b body → confined a b h → confined a b (try_except body cls h).
Proof.
  intros Hbody Hh st Ha Hb. unfold try_except. specialize (Hbody st Ha Hb).
  destruct (body st) as [[x | e |] st1]; simpl in *; try done.
  destruct (decide (e = cls)); simpl; [| done].
  eapply within_trans; [exact Hbody |].
  destruct Hbody as [[H1 H2] _]. apply Hh; congruence.
Qed.

Lemma confined_gather {A B} (c1 : M A) (c2 : M B) :
  confined a b c1 → confined a b c2 → confined a b (gather c1 c2).
Proof.
  intros H1 H2 st Ha Hb. unfold gather. specialize (H1 st Ha Hb).
  destruct (c1 st) as [r1 st1]. simpl in H1.
  assert (H2' : within a b st1 (c2 st1).2).
  { destruct H1 as [[? ?] _]. apply H2; congruence. }
  destruct (c2 st1) as [r2 st2]. simpl in *.
  assert (within a b st st2) by (eapply within_trans; eauto).
  by destruct r1, r2.
Qed.

Lemma confined_recv ws : ws = a ∨ ws = b → confined a b (recv ws).
Proof.
  intros Hws st _ _. unfold recv, on_net, sock_recv.
  destruct (net st !! ws) as [[[] [| f i] o] |]; simpl;
    repeat split; try done;
    intros x Hxa Hxb; apply lookup_insert_ne; by destruct Hws as [-> | ->].
Qed.

Lemma confined_send ws m : ws = a ∨ ws = b → confined a b (send ws m).
Proof.
  intros Hws st _ _. unfold send, on_net, sock_send.
  destruct (net st !! ws) as [[[] i o] |]; simpl;
    repeat split; try done;
    intros x Hxa Hxb; apply lookup_insert_ne; by destruct Hws as [-> | ->].
Qed.

Lemma confined_json_loads data : confined a b (json_loads data).
Proof. destruct data; intros st _ _; apply within_refl. Qed.

Lemma confined_dict_get message key : confined a b (dict_get message key).
Proof. destruct message; intros st _ _; apply within_refl. Qed.

Lemma confined_set_players p : confined a b (set_players p).
Proof. intros st _ _. by repeat split. Qed.

Lemma confined_set_game_over o : confined a b (set_game_over o).
Proof. intros st _ _. by repeat split. Qed.

Lemma confined_receive_move ws :
  ws = a ∨ ws = b → confined a b (receive_move ws).
Proof.
  intros Hws. apply confined_try_except; [| apply confined_ret].
  apply confined_bind; [by apply confined_recv |]. intros data.
  apply confined_bind; [apply confined_json_loads |]. intros message.
  apply confined_bind; [apply confined_dict_get |]. intros move.
  destruct (as_valid_move move).
  - apply confined_with_self. intros g _ _.
    apply confined_bind; [apply confined_set_players | intros; apply confined_ret].
  - apply confined_bind; [by apply confined_send | intros; apply confined_ret].
Qed.

Lemma confined_receive_response ws :
  ws = a ∨ ws = b → confined a b (receive_response ws).
Proof.
  intros Hws. apply confined_try_except; [| apply confined_ret].
  apply confined_bind; [by apply confined_recv |]. intros data.
  apply confined_bind; [apply confined_json_loads |]. intros message.
  apply confined_bind; [apply confined_dict_get |]. intros answer.
  apply confined_ret.
Qed.

Lemma confined_broadcast m : confined a b (broadcast m).
Proof.
  apply confined_with_self. intros g Ha Hb.
  apply confined_bind; [apply confined_send; by left |].
  intros _. apply confined_send. by right.
Qed.

Lemma confined_players_at ws : confined a b (players_at ws).
Proof.
  apply confined_with_self. intros g _ _.
  destruct (players g !! ws); intros st _ _; apply within_refl.
Qed.

Lemma confined_determine_winner : confined a b determine_winner.
Proof.
  apply confined_with_self. intros g _ _.
  apply confined_bind; [apply confined_players_at |]. intros move1.
  apply confined_bind; [apply confined_players_at |]. intros move2.
  apply confined_bind; [intros st _ _; apply within_refl |]. intros result.
  apply confined_bind; [apply confined_broadcast |]. intros _.
  apply confined_set_game_over.
Qed.

Lemma confined_reset_game : confined a b reset_game.
Proof.
  apply confined_with_self. intros g _ _.
  apply confined_bind; [apply confined_set_players |]. intros _.
  apply confined_set_game_over.
Qed.

Lemma confined_collect_moves : confined a b collect_moves.
Proof.
  apply confined_with_self. intros g Ha Hb.
  apply confined_bind; [apply confined_send; by left |]. intros _.
  apply confined_bind; [apply confined_send; by right |]. intros _.
  apply confined_gather; apply confined_receive_move; [by left | by right].
Qed.

Lemma confined_game_round : confined a b game_round.
Proof.
  apply confined_bind; [apply confined_collect_moves |]. intros rs.
  destruct (negb _); [apply confined_broadcast | apply confined_determine_winner].
Qed.

Lemma confined_ask_for_rematch (k : M unit) :
  confined a b k → confined a b (ask_for_rematch k).
Proof.
  intros Hk. apply confined_with_self. intros g Ha Hb.
  apply confined_bind; [apply confined_broadcast |]. intros _.
  apply confined_bind.
  - apply confined_gather; apply confined_receive_response; [by left | by right].
  - intros rs. destruct (rs.1 && rs.2).
    + apply confined_bind; [apply confined_reset_game | done].
    + apply confined_broadcast.
Qed.

Lemma confined_game_loop (k : M unit) :
  confined a b k → confined a b (game_loop k).
Proof.
  intros Hk. apply confined_with_self. intros g Ha Hb.
  apply confined_bind; [| intros; by apply confined_ask_for_rematch].
  destruct (negb _); [apply confined_game_round | apply confined_ret].
Qed.

Lemma confined_start_game fuel : confined a b (start_game fuel).
Proof.
  induction fuel as [| fuel IH]; [intros st _ _; apply within_refl |].
  apply confined_with_self. intros g Ha Hb.
  apply confined_bind; [apply confined_send; by left |]. intros _.
  apply confined_bind; [apply confined_send; by right |]. intros _.
  by apply confined_game_loop.
Qed.
End Within.

(** A session keeps to its own two websockets: every other websocket
    of the server is left exactly as it was, and the game stays with
    the two it was created for. *)
Theorem session_is_confined (fuel : nat) (st : state) (ws : handle) :
  ws ≠ player1_ws (self st) → ws ≠ player2_ws (self st) →
  net (start_game fuel st).2 !! ws = net st !! ws ∧
  same_players st (start_game fuel st).2.
Proof.
  intros H1 H2.
  destruct (confined_start_game (player1_ws (self st)) (player2_ws (self st))
              fuel st eq_refl eq_refl) as [Hsame Hother].
  split; [by apply Hother | done].
Qed.

Lemma session_is_confined_witness :
  net (start_game 3 crowded_session).2 !! 7 =
    Some (Conn true [move_frame "rock"] []).
Proof.
  assert (H1 : 7 ≠ player1_ws (self crowded_session)) by (by vm_compute).
  assert (H2 : 7 ≠ player2_ws (self crowded_session)) by (by vm_compute).
  destruct (session_is_confined 3 crowded_session 7 H1 H2) as [H _].
  etrans; [exact H |]. by vm_compute.
Defined.

(** ** The dispatcher *)

Lemma remove_if_present_length (h : handle) (q : list handle) :
  (length (remove_if_present h q) ≤ length q)%nat.
Proof.
  unfold remove_if_present. case_decide; [| done].
  induction q as [| x q IH]; simpl; [done |].
  case_decide as Heq; simpl; [lia |].
  destruct (decide (h ∈ q)) as [Hin | Hnot].
  - specialize (IH Hin). lia.
  - exfalso. apply elem_of_cons in H as [-> | Hin]; done.
Qed.

Lemma delivered_sent (g : game) (w : world) (ws : handle) :
  delivered w ws = sent {| self := g; net := sockets w |} ws.
Proof. reflexivity. Qed.

Lemma handler_queue (websocket : handle) (w : world) :
  waiting_players (handler websocket w).2 =
    match waiting_players w with
    | opponent_ws :: rest => remove_if_present websocket rest
    | [] =>
        match sockets w !! websocket with
        | Some c => if alive c then [websocket] else []
        | None => []
        end
    end.
Proof.
  unfold handler. destruct (waiting_players w) as [| opponent_ws rest]; cbn [pop0].
  - unfold sock_send, append, remove_if_present. simpl.
    destruct (sockets w !! websocket) as [[[] i o] |]; simpl;
      try done; rewrite decide_True by left; simpl; by rewrite decide_True.
  - destruct (start_game (session_fuel _) _) as [[[] | [] |] st']; reflexivity.
Qed.










(** At most one player waits: when the list of waiting players has at
    most one entry, it has at most one after a call of [handler] and
    after the [finally] clause of a waiting one; a newcomer that finds
    somebody waiting leaves the list empty. *)
Theorem at_most_one_waits (websocket : handle) (w : world) :
  (length (waiting_players w) ≤ 1)%nat →
  (length (waiting_players (handler websocket w).2) ≤ 1)%nat ∧
  (length (waiting_players (handler_resume websocket w)) ≤ 1)%nat ∧
  (waiting_players w ≠ [] → waiting_players (handler websocket w).2 = []).
Proof.
  intros Hlen. rewrite handler_queue. split; [| split].
  - destruct (waiting_players w) as [| opponent_ws rest]; simpl in *.
    + destruct (sockets w !! websocket) as [[[] i o] |]; simpl; lia.
    + pose proof (remove_if_present_length websocket rest). lia.
  - simpl. pose proof (remove_if_present_length websocket (waiting_players w)). lia.
  - destruct (waiting_players w) as [| opponent_ws [| x rest]]; simpl in *;
      [done | done | lia].
Qed.

Lemma at_most_one_waits_witness :
  (length (waiting_players
     (handler 2 {| waiting_players := [1]; sockets := net rematch_session |}).2) ≤ 1)%nat ∧
  waiting_players
    (handler 2 {| waiting_players := [1]; sockets := net rematch_session |}).2 = [].
Proof.
  destruct (at_most_one_waits 2
              {| waiting_players := [1]; sockets := net rematch_session |})
    as (H1 & _ & H3).
  - simpl. lia.
  - split; [exact H1 | by apply H3].
Defined.

(** A websocket that finds nobody waiting is put on the list and sent
    the "waiting" notice, once, and its handler waits for the connection
    to close.  When its connection is closed already, nothing is sent
    and the [finally] clause takes it off the list again at once. *)
Theorem handler_first_arrival (websocket : handle) (w : world) :
  waiting_players w = [] →
  (∀ c, sockets w !! websocket = Some c → alive c = true →
        handler websocket w =
          (Suspended,
           {| waiting_players := [websocket];
              sockets :=
                <[websocket := {| alive := true; inbox := inbox c;
                                  outbox := outbox c ++
                                    [MWaiting "Waiting for an opponent..."] |}]>
                  (sockets w) |})) ∧
  ((∀ c, sockets w !! websocket = Some c → alive c = false) →
   handler websocket w = (Returned, {| waiting_players := []; sockets := sockets w |})).
Proof.
  intros Hq. unfold handler. rewrite Hq. cbn [pop0]. unfold sock_send, append. split.
  - intros c Hc Ha. rewrite Hc, Ha. done.
  - intros Hclosed. destruct (sockets w !! websocket) as [c |] eqn:Hc.
    + rewrite (Hclosed c eq_refl). unfold remove_if_present. simpl.
      rewrite decide_True by left. simpl. by rewrite decide_True.
    + unfold remove_if_present. simpl.
      rewrite decide_True by left. simpl. by rewrite decide_True.
Qed.

Lemma handler_first_arrival_witness :
  handler 1 {| waiting_players := []; sockets := net rematch_session |} =
    (Suspended,
     {| waiting_players := [1];
        sockets :=
          <[1 := {| alive := true;
                    inbox := [move_frame "rock"; rematch_frame "yes";
                              move_frame "paper"; rematch_frame "no"];
                    outbox := [] ++ [MWaiting "Waiting for an opponent..."] |}]>
            (net rematch_session) |}).
Proof.
  destruct (handler_first_arrival 1
              {| waiting_players := []; sockets := net rematch_session |} eq_refl)
    as [H _].
  apply (H {| alive := true;
              inbox := [move_frame "rock"; rematch_frame "yes";
                        move_frame "paper"; rematch_frame "no"];
              outbox := [] |}); by vm_compute.
Defined.

(** [handler] lets no [ConnectionClosed] out, and for a websocket that
    is not itself waiting it never raises [KeyError]: the [except]
    clause takes the first, and the session never raises the
    second. *)
Theorem handler_never_KeyError (websocket : handle) (w : world) :
  websocket ∉ waiting_players w →
  (handler websocket w).1 ≠ Raised ConnectionClosed ∧
  (handler websocket w).1 ≠ Raised KeyError.
Proof.
  intros Hnot. unfold handler.
  destruct (waiting_players w) as [| opponent_ws rest]; cbn [pop0].
  - unfold sock_send.
    destruct (sockets w !! websocket) as [[[] i o] |]; simpl; by split.
  - assert (Hne : opponent_ws ≠ websocket).
    { intros ->. apply Hnot. left. }
    pose proof (start_game_ends_well
                  (session_fuel {| self := new_game opponent_ws websocket;
                                   net := sockets w |})
                  {| self := new_game opponent_ws websocket; net := sockets w |}
                  Hne) as Hwell.
    destruct (start_game _ _) as [[[] | [] |] st']; simpl in *; try by split.
    by destruct Hwell as [H | [H | [H | H]]].
Qed.

Lemma handler_never_KeyError_witness :
  (handler 2 {| waiting_players := [1]; sockets := net malformed_session |}).1 ≠
    Raised ConnectionClosed ∧
  (handler 2 {| waiting_players := [1]; sockets := net malformed_session |}).1 ≠
    Raised KeyError.
Proof.
  apply handler_never_KeyError. simpl. rewrite elem_of_cons, elem_of_nil.
  intros [H | []]. discriminate H.
Defined.

(** The player that has waited is Player 1 and the newcomer is
    Player 2: when both connections are open, the first thing [handler]
    sends to the waiting websocket is the start notice of player 1, and
    the first thing it sends to the new one is that of player 2. *)
Theorem handler_assigns_roles (websocket opponent_ws : handle)
    (rest : list handle) (w : world) (c1 c2 : conn) :
  waiting_players w = opponent_ws :: rest →
  opponent_ws ≠ websocket →
  sockets w !! opponent_ws = Some c1 → alive c1 = true →
  sockets w !! websocket = Some c2 → alive c2 = true →
  (delivered w opponent_ws ++ [start1]) `prefix_of`
    delivered (handler websocket w).2 opponent_ws ∧
  (delivered w websocket ++ [start2]) `prefix_of`
    delivered (handler websocket w).2 websocket.
Proof.
  intros Hq Hne H1 Ha1 H2 Ha2.
  rewrite (handler_pairs_head websocket opponent_ws rest w Hq).
  unfold delivered at 1 3. rewrite H1, H2.
  set (g := new_game opponent_ws websocket).
  rewrite !(delivered_sent g). cbn [sockets].
  assert (Hst : {| self := g; net := sockets w |} =
                duo opponent_ws websocket (sockets w) g c1 c2)
    by exact (state_as_duo opponent_ws websocket {| self := g; net := sockets w |}
                c1 c2 H1 H2).
  destruct c1 as [a1 i1 o1], c2 as [a2 i2 o2]. simpl in Ha1, Ha2. subst a1 a2.
  assert (Hrun : ∃ n,
    start_game (session_fuel {| self := g; net := sockets w |})
               {| self := g; net := sockets w |} =
    game_loop (start_game n)
      (duo opponent_ws websocket (sockets w) g
           (Conn true i1 (o1 ++ [start1])) (Conn true i2 (o2 ++ [start2])))).
  { exists (pending {| self := g; net := sockets w |}).
    unfold session_fuel. rewrite Hst at 2. cbn [start_game].
    unfold bind at 1, get_self. cbn [self duo].
    unfold bind at 1. subst g. cbn [player1_ws player2_ws new_game].
    rewrite send1 by done. unfold bind at 1. by rewrite send2. }
  destruct Hrun as [n Hrun].
  destruct (respects_game_loop grows grows_refl grows_trans grows_recv grows_send
              grows_store grows_reset grows_over (start_game n) (start_game_grows n)
              (duo opponent_ws websocket (sockets w) g
                   (Conn true i1 (o1 ++ [start1])) (Conn true i2 (o2 ++ [start2]))))
    as (_ & _ & Hpre).
  pose proof (Hpre opponent_ws) as Hp1. pose proof (Hpre websocket) as Hp2.
  rewrite sent_duo1 in Hp1 by done. rewrite sent_duo2 in Hp2.
  rewrite Hrun.
  set (fin := game_loop (start_game n) _) in *.
  split; [exact Hp1 | exact Hp2].
Qed.

Lemma handler_assigns_roles_witness :
  (delivered {| waiting_players := [1]; sockets := net rematch_session |} 1 ++ [start1])
    `prefix_of`
    delivered (handler 2 {| waiting_players := [1]; sockets := net rematch_session |}).2 1 ∧
  (delivered {| waiting_players := [1]; sockets := net rematch_session |} 2 ++ [start2])
    `prefix_of`
    delivered (handler 2 {| waiting_players := [1]; sockets := net rematch_session |}).2 2.
Proof.
  apply (handler_assigns_roles 2 1 []
           {| waiting_players := [1]; sockets := net rematch_session |}
           {| alive := true;
              inbox := [move_frame "rock"; rematch_frame "yes";
                        move_frame "paper"; rematch_frame "no"];
              outbox := [] |}
           {| alive := true;
              inbox := [move_frame "paper"; rematch_frame "yes";
                        move_frame "paper"; rematch_frame "yes"];
              outbox := [] |}); by vm_compute.
Defined.

(** ** The client *)

(** The input loops of the client: every line that is not accepted is
    answered with the complaint and the prompt again; the first line
    that is accepted (after [.strip().lower()]) is the answer, and the
    lines after it are left for later.  When no line is accepted the
    input runs out and there is no answer ([EOFError]). *)
Theorem ask_until_first_accepted (clean : string → string) (ok : string → bool)
    (prompt complaint : string) (bad : list string) (console : list out) :
  Forall (λ l, ok (clean l) = false) bad →
  (∀ line rest,
     ok (clean line) = true →
     ask_until clean ok prompt complaint (bad ++ line :: rest) console =
       (Some (clean line), rest,
        console ++ complaints prompt complaint bad ++ [Prompt prompt])) ∧
  ask_until clean ok prompt complaint bad console =
    (None, [], console ++ complaints prompt complaint bad ++ [Prompt prompt]).
Proof.
  intros Hbad. revert console.
  induction Hbad as [| l bad Hl Hbad IH]; intros console; simpl.
  - split; [| done]. intros line rest Hok. by rewrite Hok.
  - rewrite Hl. destruct (IH (console ++ [Prompt prompt; Print complaint]))
      as [IH1 IH2].
    split.
    + intros line rest Hok. rewrite (IH1 line rest Hok).
      by rewrite <- !app_assoc.
    + rewrite IH2. by rewrite <- !app_assoc.
Qed.

Lemma ask_until_first_accepted_witness :
  ask_move id ["lizard"; "spock"; "rock"; "yes"] [] =
    (Some "rock", ["yes"],
     [] ++ complaints "Enter your move (rock, paper, or scissors): "
             "Invalid move. Please enter 'rock', 'paper', or 'scissors'."
             ["lizard"; "spock"]
        ++ [Prompt "Enter your move (rock, paper, or scissors): "]).
Proof.
  destruct (ask_until_first_accepted id validate_move
              "Enter your move (rock, paper, or scissors): "
              "Invalid move. Please enter 'rock', 'paper', or 'scissors'."
              ["lizard"; "spock"] []) as [H _].
  - by repeat constructor.
  - by apply (H "rock" ["yes"]).
Defined.

Lemma ask_until_ok (clean : string → string) (ok : string → bool)
    (prompt complaint : string) (lines : list string) (console : list out)
    (x : string) (rest : list string) (con : list out) :
  ask_until clean ok prompt complaint lines console = (Some x, rest, con) →
  ok x = true.
Proof.
  revert console. induction lines as [| l lines IH]; intros console; simpl; [done |].
  destruct (ok (clean l)) eqn:Hok; [| apply IH].
  by intros [= <- _ _].
Qed.

Lemma validate_move_accepted (mv : string) :
  accepted [("move", JStr mv)] = validate_move mv.
Proof.
  unfold accepted, validate_move. rewrite member_single. cbn [as_valid_move].
  unfold valid_moves. case_decide as Hin.
  - by rewrite (bool_decide_eq_true_2 _ Hin).
  - by rewrite (bool_decide_eq_false_2 _ Hin).
Qed.

(** Client and server agree on what a move is: the server's
    [receive_move] accepts the frame [{"move": x}] on an open
    connection exactly when the client's [validate_move] accepts [x]. *)
Theorem server_accepts_validated_moves (mv : string) (ws : handle) (st : state)
    (c : conn) (rest : list frame) :
  net st !! ws = Some c → alive c = true →
  inbox c = move_frame mv :: rest →
  (receive_move ws st).1 = Ret (validate_move mv).
Proof.
  intros Hc Ha Hin. rewrite <- validate_move_accepted. unfold accepted.
  unfold receive_move. run_coro. rewrite Hc. simpl. rewrite Ha, Hin. simpl.
  destruct (as_valid_move _) as [x |]; run_coro.
  - done.
  - rewrite lookup_insert_eq. by simpl.
Qed.

Lemma server_accepts_validated_moves_witness :
  (receive_move 1 (fresh_session 1 2 [move_frame "Rock"] [])).1 =
    Ret (validate_move "Rock").
Proof.
  apply (server_accepts_validated_moves "Rock" 1 _
           {| alive := true; inbox := [move_frame "Rock"]; outbox := [] |} []);
    by vm_compute.
Defined.

Lemma proper_move (x : string) : validate_move x = true → proper_answer (move_frame x).
Proof. intros Hx. left. exists x. by rewrite validate_move_accepted. Qed.

Lemma proper_rematch (x : string) :
  validate_answer x = true → proper_answer (rematch_frame x).
Proof.
  unfold validate_answer. rewrite bool_decide_eq_true, !elem_of_cons, elem_of_nil.
  intros [-> | [-> | []]]; right; [by left | by right].
Qed.

Lemma answer_with_leaving
    (ask : list string → list out → option string * list string * list out)
    (wrap : string → frame) (c : client) :
  leaving (answer_with ask wrap c).2 = leaving c ∧
  sendable (answer_with ask wrap c).2 = sendable c ∨
  ∃ x rest con,
    ask (keyboard c) (console c) = (Some x, rest, con) ∧
    leaving (answer_with ask wrap c).2 = leaving c ++ [wrap x] ∧
    S (sendable (answer_with ask wrap c).2) = sendable c.
Proof.
  unfold answer_with, client_send.
  destruct (ask (keyboard c) (console c)) as [[[x |] rest] con]; simpl; [| by left].
  destruct (sendable c) as [| n] eqn:Hn; simpl; [by left |].
  right. by exists x, rest, con.
Qed.

(** What one frame can add to the frames sent: nothing, or one proper
    answer to a prompt. *)
Lemma on_message_leaving (clean : string → string) (a : arrival) (c : client) :
  leaving (on_message clean a c).2 = leaving c ∧
  sendable (on_message clean a c).2 = sendable c ∨
  ∃ f, is_prompt a = true ∧ proper_answer f ∧
       leaving (on_message clean a c).2 = leaving c ++ [f] ∧
       S (sendable (on_message clean a c).2) = sendable c.
Proof.
  destruct a as [[] |]; simpl; try by left.
  - destruct (answer_with_leaving (ask_move clean) move_frame (say message c))
      as [H | (x & rest & con & Hask & Hl & Hs)]; [by left |].
    right. exists (move_frame x). repeat split; try done.
    apply proper_move. by apply ask_until_ok in Hask.
  - destruct (answer_with_leaving (ask_rematch clean) rematch_frame c)
      as [H | (x & rest & con & Hask & Hl & Hs)]; [by left |].
    right. exists (rematch_frame x). repeat split; try done.
    apply proper_rematch. by apply ask_until_ok in Hask.
Qed.

Lemma play_loop_leaving (clean : string → string) (arriving : list arrival)
    (c : client) :
  ∃ fs,
    leaving (play_loop clean arriving c).2 = leaving c ++ fs ∧
    Forall proper_answer fs ∧
    (length fs ≤ length (filter (λ a, is_prompt a = true) arriving))%nat ∧
    length fs + sendable (play_loop clean arriving c).2 = sendable c.
Proof.
  revert c. induction arriving as [| a arriving IH]; intros c; simpl.
  - exists []. rewrite app_nil_r. repeat split; first [done | constructor].
  - assert (Hstep : ∃ fs,
      leaving (on_message clean a c).2 = leaving c ++ fs ∧ Forall proper_answer fs ∧
      (length fs ≤ if is_prompt a then 1 else 0)%nat ∧
      length fs + sendable (on_message clean a c).2 = sendable c).
    { destruct (on_message_leaving clean a c) as [[Hl Hs] | (f & Hp & Hf & Hl & Hs)].
      - exists []. rewrite app_nil_r.
        repeat split; first [done | constructor | simpl; lia].
      - exists [f]. rewrite Hp.
        repeat split; first [done | by constructor | simpl; lia]. }
    destruct Hstep as (fs1 & Hl1 & Hf1 & Hn1 & Hs1).
    assert (Hcount : (length (filter (λ a, is_prompt a = true) (a :: arriving)) =
                      (if is_prompt a then 1 else 0) +
                      length (filter (λ a, is_prompt a = true) arriving))%nat).
    { rewrite filter_cons. destruct (is_prompt a); by case_decide. }
    rewrite Hcount.
    destruct (on_message clean a c) as [[] c1]; simpl in *.
    + destruct (IH c1) as (fs2 & Hl2 & Hf2 & Hn2 & Hs2).
      exists (fs1 ++ fs2). rewrite Hl2, Hl1, app_assoc, length_app.
      repeat split; first [done | by apply Forall_app | lia].
    + exists fs1. repeat split; first [done | lia].
    + exists fs1. repeat split; first [done | lia].
Qed.

(** The client keeps to the protocol, whatever arrives and whatever
    the user types: every frame it sends is a move that the server's
    test accepts or "yes" or "no" to a rematch; it sends at most one frame
    for each prompt it has been sent, and never more than the
    connection takes. *)
Theorem client_keeps_to_protocol (clean : string → string)
    (arriving : list arrival) (lines : list string) (budget : nat) :
  Forall proper_answer (leaving (play clean arriving lines budget).2) ∧
  (length (leaving (play clean arriving lines budget).2) ≤
   length (filter (λ a, is_prompt a = true) arriving))%nat ∧
  length (leaving (play clean arriving lines budget).2) +
    sendable (play clean arriving lines budget).2 = budget.
Proof.
  unfold play.
  destruct (play_loop_leaving clean arriving
              {| player := None; keyboard := lines; console := [];
                 sendable := budget; leaving := [] |})
    as (fs & Hl & Hf & Hn & Hs).
  simpl in *. by rewrite Hl.
Qed.

Lemma on_message_final (clean : string → string) (a : arrival) (c : client) :
  is_final a = true → (on_message clean a c).1 = Break.
Proof. by destruct a as [[] |]. Qed.

(** After "end" or "error" the client is done: frames that arrive
    later are never looked at, and the loop of [play] is always left by
    [break] or by the [EOFError] of an [input]. *)
Theorem play_stops_at_final (clean : string → string)
    (before after : list arrival) (a : arrival) (c : client) :
  is_final a = true →
  play_loop clean (before ++ a :: after) c = play_loop clean (before ++ [a]) c ∧
  (play_loop clean (before ++ a :: after) c).1 ≠ Continue.
Proof.
  intros Hfinal. revert c. induction before as [| b before IH]; intros c; simpl.
  - pose proof (on_message_final clean a c Hfinal) as Hbreak.
    destruct (on_message clean a c) as [[] c1]; simpl in *; done.
  - destruct (on_message clean b c) as [[] c1]; simpl; [apply IH | done | done].
Qed.

Lemma play_stops_at_final_witness :
  play_loop id [Known start1; Known (MEnd "Game over."); Known your_move]
    (Client None [] [] 1 []) =
  play_loop id [Known start1; Known (MEnd "Game over.")] (Client None [] [] 1 []).
Proof.
  by apply (play_stops_at_final id [Known start1] [Known your_move]
              (Known (MEnd "Game over.")) (Client None [] [] 1 [])).
Defined.

Lemma ask_until_None (clean : string → string) (ok : string → bool)
    (prompt complaint : string) (lines : list string) (console : list out)
    (rest : list string) (con : list out) :
  ask_until clean ok prompt complaint lines console = (None, rest, con) →
  rest = [] ∧ Forall (λ l, ok (clean l) = false) lines.
Proof.
  revert console. induction lines as [| l lines IH]; intros console; simpl.
  - by intros [= <- _].
  - destruct (ok (clean l)) eqn:Hok; [done |].
    intros [-> Hall]%IH. split; [done | by constructor].
Qed.

(** The client dies of an [EOFError] only when it has been prompted and
    the user's input has run out without a line that is accepted: then
    nothing of the input is left. *)
Theorem play_crashes_out_of_input (clean : string → string)
    (arriving : list arrival) (c : client) :
  (play_loop clean arriving c).1 = Crash →
  keyboard (play_loop clean arriving c).2 = [] ∧
  ∃ a, a ∈ arriving ∧ is_prompt a = true.
Proof.
  revert c. induction arriving as [| a arriving IH]; intros c; simpl; [done |].
  destruct (on_message clean a c) as [[] c1] eqn:Hstep; simpl; [| done |].
  - intros [Hk (a' & Hin & Hp)]%IH. split; [done |]. exists a'. split; [by right | done].
  - intros _. destruct a as [[] |]; simpl in Hstep; try done.
    + unfold answer_with in Hstep. simpl in Hstep.
      destruct (ask_move clean _ _) as [[[x |] rest] con] eqn:Hask.
      * destruct (client_send _ _); done.
      * apply ask_until_None in Hask as [-> _]. injection Hstep as <-.
        split; [done |]. eexists. split; [left | done].
    + unfold answer_with in Hstep.
      destruct (ask_rematch clean _ _) as [[[x |] rest] con] eqn:Hask.
      * destruct (client_send _ _); done.
      * apply ask_until_None in Hask as [-> _]. injection Hstep as <-.
        split; [done |]. eexists. split; [left | done].
Qed.

Lemma play_crashes_out_of_input_witness :
  keyboard (play id [Known start1; Known your_move] ["lizard"] 1).2 = [].
Proof.
  by apply (play_crashes_out_of_input id [Known start1; Known your_move]
              (Client None ["lizard"] [] 1 [])).
Defined.

(** Each player is told the outcome from its own side.  A client that
    has been sent the start notice of player 1 and then the result the
    server computes for two legal moves prints the two moves and "You
    won!" when the first move beats the second, "You lost." when it is
    beaten and "Draw!" when they are equal; the client with the start
    notice of player 2 prints the same with the sides exchanged. *)
Theorem players_read_their_outcome (clean : string → string) (m1 m2 : string)
    (c : client) :
  m1 ∈ valid_moves → m2 ∈ valid_moves →
  console (on_message clean
             (Known (MResult (Some m1) (Some m2) (result_of m1 m2)))
             (on_message clean (Known start1) c).2).2 =
    console c ++
      [Print "Game started. You are Player 1";
       Print (String.append "Player 1 chose: " m1);
       Print (String.append "Player 2 chose: " m2);
       Print (outcome_line m1 m2)] ∧
  console (on_message clean
             (Known (MResult (Some m1) (Some m2) (result_of m1 m2)))
             (on_message clean (Known start2) c).2).2 =
    console c ++
      [Print "Game started. You are Player 2";
       Print (String.append "Player 1 chose: " m1);
       Print (String.append "Player 2 chose: " m2);
       Print (outcome_line m2 m1)].
Proof.
  intros H1 H2. simpl. rewrite <- !app_assoc. simpl.
  legal_cases H1; legal_cases H2; split; reflexivity.
Qed.

Lemma players_read_their_outcome_witness :
  console (on_message id
             (Known (MResult (Some "rock") (Some "paper") (result_of "rock" "paper")))
             (on_message id (Known start2) (Client None [] [] 1 [])).2).2 =
    [] ++
      [Print "Game started. You are Player 2";
       Print (String.append "Player 1 chose: " "rock");
       Print (String.append "Player 2 chose: " "paper");
       Print (outcome_line "paper" "rock")].
Proof.
  apply (players_read_their_outcome id "rock" "paper" (Client None [] [] 1 []));
    unfold valid_moves; rewrite !elem_of_cons; tauto.
Defined.

(** ** A rematch *)

(** A rematch starts like a new game.  A call of [ask_for_rematch]
    either ends without calling [start_game], or it calls [start_game]
    with the game object exactly as [__init__] built it for the same two
    websockets: both moves [None] and [game_over] false, whatever the
    round before has left. *)
Theorem rematch_starts_like_new (st : state) :
  (∃ r s, ∀ k, ask_for_rematch k st = (r, s)) ∨
  (∃ s, self s = new_game (player1_ws (self st)) (player2_ws (self st)) ∧
        ∀ k, ask_for_rematch k st = k s).
Proof.
  destruct (ask_for_rematch_tail st) as [(r & s & _ & Hk) | (s & Hnew & _ & _ & Hk)].
  - left. by exists r, s.
  - right. by exists s.
Qed.

(** ** Rematches, as deep as they go *)

Section Posts.
Variable P : msg → Prop.

Lemma posts_refl (st : state) : posts P st st.
Proof. intros ws. exists []. by rewrite app_nil_r. Qed.

Lemma posts_trans (a b c : state) : posts P a b → posts P b c → posts P a c.
Proof.
  intros H1 H2 ws. destruct (H1 ws) as (l1 & E1 & F1). destruct (H2 ws) as (l2 & E2 & F2).
  exists (l1 ++ l2). split; [by rewrite E2, E1, app_assoc | by apply Forall_app].
Qed.

Lemma posts_recv (ws : handle) : respects (posts P) (recv ws).
Proof. intros st ws'. exists []. by rewrite recv_sent, app_nil_r. Qed.

Lemma posts_send (ws : handle) (m : msg) : P m → respects (posts P) (send ws m).
Proof.
  intros Hm st ws'. destruct (send_sent ws m st ws') as [k Hk].
  exists (repeat m k). split; [done |].
  apply Forall_forall. intros x Hx%list_elem_of_In. by rewrite (repeat_spec _ _ _ Hx).
Qed.

Lemma posts_set_players (p : gmap handle (option string)) :
  respects (posts P) (set_players p).
Proof. intros st ws. exists []. by rewrite app_nil_r. Qed.

Lemma posts_set_game_over (o : bool) : respects (posts P) (set_game_over o).
Proof. intros st ws. exists []. by rewrite app_nil_r. Qed.

Lemma posts_receive_move (ws : handle) :
  P (MError "Invalid move") → respects (posts P) (receive_move ws).
Proof.
  intros Herr.
  apply respects_try_except; [apply posts_trans | | apply respects_ret, posts_refl].
  apply respects_bind; [apply posts_trans | apply posts_recv |]. intros data.
  apply respects_bind; [apply posts_trans | apply respects_json_loads, posts_refl |].
  intros message.
  apply respects_bind; [apply posts_trans | apply respects_dict_get, posts_refl |].
  intros move.
  destruct (as_valid_move move) as [mv |].
  - apply respects_with_self. intros g.
    apply respects_bind; [apply posts_trans | apply posts_set_players |].
    intros _. apply respects_ret, posts_refl.
  - apply respects_bind; [apply posts_trans | by apply posts_send |].
    intros _. apply respects_ret, posts_refl.
Qed.

Lemma posts_receive_response (ws : handle) : respects (posts P) (receive_response ws).
Proof.
  apply respects_try_except; [apply posts_trans | | apply respects_ret, posts_refl].
  apply respects_bind; [apply posts_trans | apply posts_recv |]. intros data.
  apply respects_bind; [apply posts_trans | apply respects_json_loads, posts_refl |].
  intros message.
  apply respects_bind; [apply posts_trans | apply respects_dict_get, posts_refl |].
  intros answer. apply respects_ret, posts_refl.
Qed.

Lemma posts_broadcast (m : msg) : P m → respects (posts P) (broadcast m).
Proof.
  intros Hm. apply respects_with_self. intros g.
  apply respects_bind; [apply posts_trans | by apply posts_send |].
  intros _. by apply posts_send.
Qed.

Lemma posts_determine_winner :
  (∀ move1 move2 result, P (MResult move1 move2 result)) →
  respects (posts P) determine_winner.
Proof.
  intros Hres. apply respects_with_self. intros g.
  apply respects_bind; [apply posts_trans | apply respects_players_at, posts_refl |].
  intros move1.
  apply respects_bind; [apply posts_trans | apply respects_players_at, posts_refl |].
  intros move2.
  apply respects_bind; [apply posts_trans | apply respects_lift, posts_refl |].
  intros result.
  apply respects_bind; [apply posts_trans | by apply posts_broadcast |].
  intros _. apply posts_set_game_over.
Qed.

Lemma posts_reset_game : respects (posts P) reset_game.
Proof.
  apply respects_with_self. intros g.
  apply respects_bind; [apply posts_trans | apply posts_set_players |].
  intros _. apply posts_set_game_over.
Qed.

Lemma posts_ask_for_rematch (k : M unit) :
  P MRematch → P (MEnd "Game over.") → respects (posts P) k →
  respects (posts P) (ask_for_rematch k).
Proof.
  intros Hre Hend Hk. apply respects_with_self. intros g.
  apply respects_bind; [apply posts_trans | by apply posts_broadcast |]. intros _.
  apply respects_bind; [apply posts_trans | |].
  - apply respects_gather; [apply posts_trans | |]; apply posts_receive_response.
  - intros rs. destruct (rs.1 && rs.2).
    + apply respects_bind; [apply posts_trans | apply posts_reset_game | done].
    + by apply posts_broadcast.
Qed.
End Posts.

Lemma bind_at {A B} (c c' : M A) (k : A → M B) (st st' : state) :
  c st = c' st' → bind c k st = bind c' k st'.
Proof. intros H. unfold bind. by rewrite H. Qed.

Lemma occurrences_none (m : msg) (l : list msg) :
  Forall (λ x, x ≠ m) l → occurrences m l = 0.
Proof.
  induction 1 as [| x l Hx Hl IH]; [done |].
  rewrite occurrences_cons, IH. by rewrite decide_False.
Qed.

Lemma occurrences_exchange_log (start m : msg) (mine : exchange → list (string * json))
    (xs : list exchange) :
  start = start1 ∨ start = start2 →
  m = start ∨ m = your_move →
  occurrences m (exchange_log start mine xs) = length xs.
Proof.
  intros Hstart Hm. induction xs as [| x xs IH]; [done |].
  assert (Hcons : exchange_log start mine (x :: xs) =
            start :: round_messages (mine x) (move_of_1 x) (move_of_2 x) ++
              [MRematch] ++ exchange_log start mine xs).
  { unfold exchange_log. cbn [flat_map app]. by rewrite <- app_assoc. }
  rewrite Hcons, occurrences_cons, occurrences_app, occurrences_app, IH. cbn [length].
  assert (Hround :
    (if decide (start = m) then 1 else 0) +
      occurrences m (round_messages (mine x) (move_of_1 x) (move_of_2 x)) = 1).
  { unfold round_messages, reply_to_move.
    destruct Hstart as [-> | ->], Hm as [-> | ->];
      destruct (as_valid_move (member "move" (move_of_1 x)));
      destruct (as_valid_move (member "move" (move_of_2 x)));
      destruct (as_valid_move (member "move" (mine x)));
      by vm_compute. }
  assert (Hre : occurrences m [MRematch] = 0).
  { destruct Hstart as [-> | ->], Hm as [-> | ->]; by vm_compute. }
  lia.
Qed.

Section Exchanges.
Variables p1 p2 : handle.
Hypothesis Hne : p1 ≠ p2.
Variable others : gmap handle conn.

Local Abbreviation table := (duo p1 p2 others).

(** A round in which both peers send a JSON object. *)
Lemma game_round_objects pl ov ms1 i1 o1 ms2 i2 o2 :
  ∃ pl' ov',
    game_round (table (Game p1 p2 pl ov)
                      (Conn true (Encoded (JObj ms1) :: i1) o1)
                      (Conn true (Encoded (JObj ms2) :: i2) o2)) =
      (Ret tt,
       table (Game p1 p2 pl' ov')
             (Conn true i1 (o1 ++ round_messages ms1 ms1 ms2))
             (Conn true i2 (o2 ++ round_messages ms2 ms1 ms2))).
Proof.
  unfold round_messages.
  destruct (as_valid_move (member "move" ms1)) as [m1 |] eqn:H1;
    [destruct (as_valid_move (member "move" ms2)) as [m2 |] eqn:H2 |].
  - apply as_valid_move_Some in H1 as H1'. destruct H1' as [_ Hv1].
    apply as_valid_move_Some in H2 as H2'. destruct H2' as [_ Hv2].
    eexists _, _.
    apply (game_round_resolved p1 p2 Hne others pl ov ms1 i1 o1 ms2 i2 o2 m1 m2
             (result_of m1 m2) H1 H2 (result_of_valid m1 m2 Hv1 Hv2)).
  - eexists _, _. apply (game_round_rejected p1 p2 Hne).
    unfold accepted. rewrite H1, H2. apply andb_false_iff. right.
    apply bool_decide_eq_false. by intros [x Hx].
  - eexists _, _. apply (game_round_rejected p1 p2 Hne).
    unfold accepted. rewrite H1. apply andb_false_iff. left.
    apply bool_decide_eq_false. by intros [x Hx].
Qed.

(** One exchange with "yes" from both: the round, the vote, and the
    next call of [start_game], one call deeper. *)
Lemma start_game_exchange (x : exchange) (fuel : nat) pl i1 o1 i2 o2 :
  both_yes x →
  start_game (S fuel)
    (table (Game p1 p2 pl false)
       (Conn true (Encoded (JObj (move_of_1 x)) :: Encoded (JObj (answer_of_1 x)) :: i1) o1)
       (Conn true (Encoded (JObj (move_of_2 x)) :: Encoded (JObj (answer_of_2 x)) :: i2) o2)) =
  start_game fuel
    (table (Game p1 p2 (<[p2 := None]> (<[p1 := None]> ∅)) false)
       (Conn true i1
          (o1 ++ start1 :: round_messages (move_of_1 x) (move_of_1 x) (move_of_2 x)
              ++ [MRematch]))
       (Conn true i2
          (o2 ++ start2 :: round_messages (move_of_2 x) (move_of_1 x) (move_of_2 x)
              ++ [MRematch]))).
Proof.
  intros [Hy1 Hy2]. cbn [start_game].
  unfold bind at 1, get_self. cbn [self duo player1_ws player2_ws].
  unfold bind at 1. rewrite send1 by done.
  unfold bind at 1. rewrite send2.
  unfold game_loop, bind at 1, get_self. cbn [self duo game_over negb].
  unfold bind at 1.
  destruct (game_round_objects pl false (move_of_1 x)
              (Encoded (JObj (answer_of_1 x)) :: i1) (o1 ++ [start1])
              (move_of_2 x) (Encoded (JObj (answer_of_2 x)) :: i2) (o2 ++ [start2]))
    as (pl' & ov' & Hround).
  rewrite Hround. rewrite ask_for_rematch_objects by done.
  rewrite Hy1, Hy2. cbn [is_yes]. rewrite bool_decide_eq_true_2 by done. cbn [andb].
  by rewrite <- !app_assoc.
Qed.

(** As many exchanges with "yes" from both as there are: the session
    arrives at a call of [start_game] that many calls deeper. *)
Lemma start_game_exchanges (xs : list exchange) (fuel : nat) (rest1 rest2 : list frame) :
  Forall both_yes xs →
  ∀ pl o1 o2,
  ∃ pl',
    start_game (length xs + fuel)
      (table (Game p1 p2 pl false)
         (Conn true (frames_of_1 xs rest1) o1) (Conn true (frames_of_2 xs rest2) o2)) =
    start_game fuel
      (table (Game p1 p2 pl' false)
         (Conn true rest1 (o1 ++ exchange_log start1 move_of_1 xs))
         (Conn true rest2 (o2 ++ exchange_log start2 move_of_2 xs))).
Proof.
  induction 1 as [| x xs Hx Hxs IH]; intros pl o1 o2.
  - exists pl. unfold exchange_log. simpl. by rewrite !app_nil_r.
  - unfold frames_of_1, frames_of_2. cbn [flat_map length Nat.add].
    rewrite <- !app_assoc. cbn [app].
    rewrite start_game_exchange by done.
    destruct (IH (<[p2 := None]> (<[p1 := None]> ∅))
                (o1 ++ start1 :: round_messages (move_of_1 x) (move_of_1 x) (move_of_2 x)
                    ++ [MRematch])
                (o2 ++ start2 :: round_messages (move_of_2 x) (move_of_1 x) (move_of_2 x)
                    ++ [MRematch])) as [pl' IH'].
    exists pl'. etrans; [exact IH' |].
    unfold exchange_log. cbn [flat_map]. by rewrite <- !app_assoc.
Qed.

(** One more call of [start_game], and no further one: each websocket
    is sent its start notice and the prompt for a move, and after that
    no start notice and no prompt for a move. *)
Lemma start_game_last pl i1 o1 i2 o2 :
  ∃ l1 l2,
    sent (start_game 1 (table (Game p1 p2 pl false) (Conn true i1 o1) (Conn true i2 o2))).2 p1 =
      o1 ++ start1 :: your_move :: l1 ∧
    sent (start_game 1 (table (Game p1 p2 pl false) (Conn true i1 o1) (Conn true i2 o2))).2 p2 =
      o2 ++ start2 :: your_move :: l2 ∧
    Forall inside_round l1 ∧ Forall inside_round l2.
Proof.
  set (after :=
    bind (bind (gather (receive_move p1) (receive_move p2))
               (λ results : bool * bool,
                  if negb (results.1 && results.2) then broadcast round_error
                  else determine_winner))
         (λ _ : unit, ask_for_rematch (start_game 0))).
  assert (Hrun :
    start_game 1 (table (Game p1 p2 pl false) (Conn true i1 o1) (Conn true i2 o2)) =
    after (table (Game p1 p2 pl false)
             (Conn true i1 ((o1 ++ [start1]) ++ [your_move]))
             (Conn true i2 ((o2 ++ [start2]) ++ [your_move])))).
  { cbn [start_game].
    unfold bind at 1, get_self. cbn [self duo player1_ws player2_ws].
    unfold bind at 1. rewrite send1 by done.
    unfold bind at 1. rewrite send2.
    unfold game_loop, bind at 1, get_self. cbn [self duo game_over negb].
    unfold after. apply bind_at. unfold game_round. apply bind_at.
    unfold collect_moves, bind at 1, get_self. cbn [self duo player1_ws player2_ws].
    unfold bind at 1. rewrite send1 by done.
    unfold bind at 1. by rewrite send2. }
  assert (Hposts : respects (posts inside_round) after).
  { unfold after.
    apply respects_bind; [apply posts_trans | |].
    - apply respects_bind; [apply posts_trans | |].
      + apply respects_gather; [apply posts_trans | |];
          apply posts_receive_move; by repeat split.
      + intros rs. destruct (negb _).
        * apply posts_broadcast. by repeat split.
        * apply posts_determine_winner. intros move1 move2 result. by repeat split.
    - intros _. apply posts_ask_for_rematch; [by repeat split | by repeat split |].
      intros st. apply posts_refl. }
  rewrite Hrun.
  destruct (Hposts (table (Game p1 p2 pl false)
                      (Conn true i1 ((o1 ++ [start1]) ++ [your_move]))
                      (Conn true i2 ((o2 ++ [start2]) ++ [your_move])))
                   p1) as (l1 & E1 & F1).
  destruct (Hposts (table (Game p1 p2 pl false)
                      (Conn true i1 ((o1 ++ [start1]) ++ [your_move]))
                      (Conn true i2 ((o2 ++ [start2]) ++ [your_move])))
                   p2) as (l2 & E2 & F2).
  rewrite sent_duo1 in E1 by done. rewrite sent_duo2 in E2. cbn [outbox] in E1, E2.
  exists l1, l2. rewrite E1, E2. rewrite <- !app_assoc. done.
Qed.
End Exchanges.

(** A run that has not used up its depth is the same with any greater
    depth. *)
Lemma start_game_deeper (fuel : nat) (st : state) :
  (start_game fuel st).1 ≠ Diverge →
  ∀ fuel', (fuel ≤ fuel')%nat → start_game fuel' st = start_game fuel st.
Proof.
  revert st. induction fuel as [| fuel IH]; intros st Hnd; [done |].
  intros [| fuel'] Hle; [lia |].
  destruct (start_game_tail st)
    as [(r & s & _ & _ & Hk) | (s & _ & _ & Hk)].
  - by rewrite !Hk.
  - rewrite !Hk. rewrite Hk in Hnd. apply IH; [done | lia].
Qed.

(** C2, as the code has it.  Both peers answer "yes" to the rematch
    prompt N times in a row, after N rounds in which each of them has
    sent some JSON object as its move, on two connections that stay
    open; what they send after that is left open.  With room for N+1
    calls of [start_game] inside one another the session starts N+1
    rounds: over and above what they had been sent before, each
    websocket is sent its "start" notice N+1 times and the "your_move"
    prompt N+1 times, once at the head of every round.  If the run ends
    within that depth (the peers do not both answer "yes" once more),
    it is the same run with any greater depth; with room for N calls or
    fewer it does not end. *)
Theorem rematch_sends_start_again (p1 p2 : handle) (others : gmap handle conn)
    (xs : list exchange) (rest1 rest2 : list frame) (o1 o2 : list msg)
    (pl : gmap handle (option string)) :
  p1 ≠ p2 →
  Forall both_yes xs →
  let st := duo p1 p2 others (Game p1 p2 pl false)
              (Conn true (frames_of_1 xs rest1) o1)
              (Conn true (frames_of_2 xs rest2) o2) in
  let fin := start_game (S (length xs)) st in
  occurrences start1 (sent fin.2 p1) = occurrences start1 o1 + S (length xs) ∧
  occurrences start2 (sent fin.2 p2) = occurrences start2 o2 + S (length xs) ∧
  occurrences your_move (sent fin.2 p1) = occurrences your_move o1 + S (length xs) ∧
  occurrences your_move (sent fin.2 p2) = occurrences your_move o2 + S (length xs) ∧
  (fin.1 ≠ Diverge → ∀ fuel, length xs < fuel → start_game fuel st = fin) ∧
  (∀ fuel, (fuel ≤ length xs)%nat → (start_game fuel st).1 = Diverge).
Proof.
  intros Hne Hyes st fin.
  destruct (start_game_exchanges p1 p2 Hne others xs 1 rest1 rest2 Hyes pl o1 o2)
    as [pl' Hrun].
  destruct (start_game_last p1 p2 Hne others pl' rest1
              (o1 ++ exchange_log start1 move_of_1 xs) rest2
              (o2 ++ exchange_log start2 move_of_2 xs))
    as (l1 & l2 & E1 & E2 & F1 & F2).
  rewrite <- Hrun in E1, E2. rewrite Nat.add_1_r in E1, E2.
  fold st in E1, E2. fold fin in E1, E2.
  assert (Hquiet : ∀ l m, Forall inside_round l →
            m = start1 ∨ m = start2 ∨ m = your_move → occurrences m l = 0).
  { intros l m Hl Hm. apply occurrences_none.
    eapply Forall_impl; [exact Hl |]. intros x (Hx1 & Hx2 & Hx3).
    destruct Hm as [-> | [-> | ->]]; done. }
  split; [| split; [| split; [| split; [| split]]]].
  - rewrite E1, !occurrences_app, !occurrences_cons.
    rewrite (occurrences_exchange_log start1 start1) by auto.
    rewrite (Hquiet l1 start1 F1) by auto.
    rewrite decide_True by done. rewrite decide_False by done. lia.
  - rewrite E2, !occurrences_app, !occurrences_cons.
    rewrite (occurrences_exchange_log start2 start2) by auto.
    rewrite (Hquiet l2 start2 F2) by auto.
    rewrite decide_True by done. rewrite decide_False by done. lia.
  - rewrite E1, !occurrences_app, !occurrences_cons.
    rewrite (occurrences_exchange_log start1 your_move) by auto.
    rewrite (Hquiet l1 your_move F1) by auto.
    rewrite decide_False by done. rewrite decide_True by done. lia.
  - rewrite E2, !occurrences_app, !occurrences_cons.
    rewrite (occurrences_exchange_log start2 your_move) by auto.
    rewrite (Hquiet l2 your_move F2) by auto.
    rewrite decide_False by done. rewrite decide_True by done. lia.
  - intros Hnd fuel Hfuel. apply (start_game_deeper (S (length xs)) st Hnd). lia.
  - intros fuel Hfuel.
    assert (Hsplit1 : frames_of_1 xs rest1 =
              frames_of_1 (take fuel xs) (frames_of_1 (drop fuel xs) rest1)).
    { unfold frames_of_1. rewrite app_assoc, <- flat_map_app. by rewrite take_drop. }
    assert (Hsplit2 : frames_of_2 xs rest2 =
              frames_of_2 (take fuel xs) (frames_of_2 (drop fuel xs) rest2)).
    { unfold frames_of_2. rewrite app_assoc, <- flat_map_app. by rewrite take_drop. }
    assert (Hyes' : Forall both_yes (take fuel xs)) by (by apply Forall_take).
    destruct (start_game_exchanges p1 p2 Hne others (take fuel xs) 0
                (frames_of_1 (drop fuel xs) rest1) (frames_of_2 (drop fuel xs) rest2)
                Hyes' pl o1 o2) as [pl0 Hdeep].
    rewrite Nat.add_0_r, length_take_le in Hdeep by done.
    unfold st. rewrite Hsplit1, Hsplit2, Hdeep. done.
Qed.

Lemma rematch_sends_start_again_witness :
  occurrences start1
    (sent (start_game 2
             (duo 1 2 ∅ (new_game 1 2)
                (Conn true (frames_of_1 [lizard_exchange]
                              [move_frame "rock"; rematch_frame "no"]) [])
                (Conn true (frames_of_2 [lizard_exchange]
                              [move_frame "scissors"; rematch_frame "no"]) []))).2 1) = 2 ∧
  occurrences your_move
    (sent (start_game 2
             (duo 1 2 ∅ (new_game 1 2)
                (Conn true (frames_of_1 [lizard_exchange]
                              [move_frame "rock"; rematch_frame "no"]) [])
                (Conn true (frames_of_2 [lizard_exchange]
                              [move_frame "scissors"; rematch_frame "no"]) []))).2 2) = 2.
Proof.
  assert (Hne : 1 ≠ 2) by lia.
  assert (Hyes : Forall both_yes [lizard_exchange]).
  { repeat constructor; by vm_compute. }
  destruct (rematch_sends_start_again 1 2 ∅ [lizard_exchange]
              [move_frame "rock"; rematch_frame "no"]
              [move_frame "scissors"; rematch_frame "no"] [] []
              (<[2 := None]> (<[1 := None]> ∅)) Hne Hyes)
    as (H1 & _ & _ & H4 & _).
  split; [exact H1 | exact H4].
Defined.
